(** * bunchive: backup, restore and retention of encrypted archives

    A shallow embedding of [src/backup.ts], [src/restore.ts],
    [src/cleanup.ts] and [src/common.ts].

    Conventions of the embedding.
    - A byte is a [Z] in [0, 256); a [Buffer] / [Uint8Array] is a [list Z].
    - A name, a path or a digest is a [string] of 8-bit code units; the
      text read from a file is the list of its UTF-16 code units.
    - The file system (local paths and [s3://] objects alike, as seen
      through [Bun.file]) is a finite map from path to content.
    - A promise that rejects / a [throw] is a [Err e] result, a promise
      that never settles is [Pending]; the state reached so far is
      returned next to it.
    - A web stream is the list of the chunks it delivers. *)

From Stdlib Require Import ZArith List String Ascii Bool Lia Permutation Sorted.
From stdpp Require Import gmap strings list.

Import ListNotations.
Local Open Scope string_scope.
Local Open Scope list_scope.
Local Open Scope Z_scope.

(** ** Bytes, text and hexadecimal *)

Abbreviation bytes := (list Z).

Definition byte_of_ascii (c : ascii) : Z := Z.of_N (N_of_ascii c).
Definition ascii_of_byte (b : Z) : ascii := ascii_of_N (Z.to_N (b mod 256)).

(** [Buffer.from(s)] / the bytes [Bun.file(p).write(s)] stores. *)
Definition bytes_of_string (s : string) : bytes :=
  List.map byte_of_ascii (list_ascii_of_string s).

(** The code units of a string. *)
Definition code_units (s : string) : list Z :=
  List.map byte_of_ascii (list_ascii_of_string s).

Definition hex_digit (n : Z) : ascii :=
  if n <? 10 then ascii_of_N (Z.to_N (48 + n)) else ascii_of_N (Z.to_N (87 + n)).

(** [buf.toString("hex")]: two lower-case digits per byte. *)
Fixpoint hex_of_bytes (b : bytes) : string :=
  match b with
  | [] => EmptyString
  | x :: r => String (hex_digit (x / 16 mod 16)) (String (hex_digit (x mod 16)) (hex_of_bytes r))
  end.

(** *** The text of a file

    [await file.text()] decodes the bytes as UTF-8, as the Encoding
    standard has it: a byte order mark at the start is dropped, and what
    is not well formed becomes U+FFFD. *)

(** A byte at the start of a sequence: a code point of its own, the lead
    of a sequence with the continuation bytes it needs, the bits it
    brings and the range of the next byte, or an error. *)
Inductive utf8_lead :=
| Single (c : Z)
| Lead (needed : nat) (c lower upper : Z)
| Invalid.

Definition utf8_lead_of (b : Z) : utf8_lead :=
  if b <=? 0x7F then Single b
  else if (0xC2 <=? b) && (b <=? 0xDF) then Lead 1 (b mod 32) 0x80 0xBF
  else if (0xE0 <=? b) && (b <=? 0xEF) then
    Lead 2 (b mod 16) (if b =? 0xE0 then 0xA0 else 0x80) (if b =? 0xED then 0x9F else 0xBF)
  else if (0xF0 <=? b) && (b <=? 0xF4) then
    Lead 3 (b mod 8) (if b =? 0xF0 then 0x90 else 0x80) (if b =? 0xF4 then 0x8F else 0xBF)
  else Invalid.

(** The code points of a byte sequence; [pending] is the sequence under
    way.  A byte outside the range ends the sequence with U+FFFD and is
    read again as the start of a sequence. *)
Fixpoint utf8_decode (pending : option (nat * Z * Z * Z)) (b : bytes) : list Z :=
  match b with
  | [] => match pending with None => [] | Some _ => [0xFFFD] end
  | x :: r =>
      let fresh :=
        match utf8_lead_of x with
        | Single c => c :: utf8_decode None r
        | Lead n c lo hi => utf8_decode (Some (n, c, lo, hi)) r
        | Invalid => 0xFFFD :: utf8_decode None r
        end in
      match pending with
      | None => fresh
      | Some (n, c, lo, hi) =>
          if (lo <=? x) && (x <=? hi) then
            let c' := c * 64 + x mod 64 in
            match n with
            | S (S m) => utf8_decode (Some (S m, c', 0x80, 0xBF)) r
            | _ => c' :: utf8_decode None r
            end
          else 0xFFFD :: fresh
      end
  end.

(** The UTF-16 code units of a code point. *)
Definition utf16_of (c : Z) : list Z :=
  if c <? 0x10000 then [c]
  else [0xD800 + (c - 0x10000) / 1024; 0xDC00 + (c - 0x10000) mod 1024].

Definition drop_bom (b : bytes) : bytes :=
  match b with
  | b0 :: b1 :: b2 :: r => if (b0 =? 0xEF) && (b1 =? 0xBB) && (b2 =? 0xBF) then r else b
  | _ => b
  end.

(** [await file.text()]. *)
Definition file_text (b : bytes) : list Z :=
  List.flat_map utf16_of (utf8_decode None (drop_bom b)).

(** Code units [String.prototype.trim] removes: white space and line
    terminators. *)
Definition is_space (u : Z) : bool :=
  (9 <=? u) && (u <=? 13) || (u =? 0x20) || (u =? 0xA0) || (u =? 0x1680)
  || (0x2000 <=? u) && (u <=? 0x200A) || (u =? 0x2028) || (u =? 0x2029)
  || (u =? 0x202F) || (u =? 0x205F) || (u =? 0x3000) || (u =? 0xFEFF).

Fixpoint trimStart (s : list Z) : list Z :=
  match s with
  | [] => []
  | u :: r => if is_space u then trimStart r else s
  end.

Fixpoint trimEnd (s : list Z) : list Z :=
  match s with
  | [] => []
  | u :: r =>
      match trimEnd r with
      | [] => if is_space u then [] else [u]
      | r' => u :: r'
      end
  end.

(** [s.trim()]. *)
Definition trim (s : list Z) : list Z := trimEnd (trimStart s).

(** [a === b] on code units. *)
Fixpoint same_units (a b : list Z) : bool :=
  match a, b with
  | [], [] => true
  | x :: a', y :: b' => (x =? y) && same_units a' b'
  | _, _ => false
  end.

(** [s.startsWith(p)]. *)
Fixpoint startsWith (s p : string) {struct p} : bool :=
  match p, s with
  | EmptyString, _ => true
  | String a p', String b s' => (a =? b)%char && startsWith s' p'
  | String _ _, EmptyString => false
  end.

(** ** SHA-256 (FIPS 180-4) and HMAC (RFC 2104), as [node:crypto] provides them *)

Module SHA256.

Definition M32 : Z := 2 ^ 32.
Definition add32 (a b : Z) : Z := (a + b) mod M32.
Definition rotr (n x : Z) : Z := Z.lor (Z.shiftr x n) (Z.shiftl x (32 - n) mod M32).
Definition Ch (x y z : Z) : Z := Z.lxor (Z.land x y) (Z.land (Z.lxor x (M32 - 1)) z).
Definition Maj (x y z : Z) : Z := Z.lxor (Z.lxor (Z.land x y) (Z.land x z)) (Z.land y z).
Definition Sigma0 (x : Z) : Z := Z.lxor (Z.lxor (rotr 2 x) (rotr 13 x)) (rotr 22 x).
Definition Sigma1 (x : Z) : Z := Z.lxor (Z.lxor (rotr 6 x) (rotr 11 x)) (rotr 25 x).
Definition sigma0 (x : Z) : Z := Z.lxor (Z.lxor (rotr 7 x) (rotr 18 x)) (Z.shiftr x 3).
Definition sigma1 (x : Z) : Z := Z.lxor (Z.lxor (rotr 17 x) (rotr 19 x)) (Z.shiftr x 10).

(** The constants are derived as the standard defines them: the first 32
    bits of the fractional parts of the cube roots of the first 64 primes,
    and of the square roots of the first 8 primes. *)
Definition is_prime (n : nat) : bool :=
  List.forallb (fun d => negb (n mod d =? 0)%nat) (List.seq 2 (n - 2)).

Definition primes (count : nat) : list Z :=
  List.map Z.of_nat (List.firstn count (List.filter is_prime (List.seq 2 310))).

(** The integer cube root of [n], bit by bit from bit [bits - 1] down. *)
Fixpoint cube_root (bits : nat) (n r : Z) : Z :=
  match bits with
  | O => r
  | S b =>
      let c := r + 2 ^ Z.of_nat b in
      cube_root b n (if c * c * c <=? n then c else r)
  end.

Definition K : list Z :=
  Eval vm_compute in List.map (fun p => cube_root 36 (p * 2 ^ 96) 0 mod M32) (primes 64).

Definition H0 : list Z :=
  Eval vm_compute in List.map (fun p => Z.sqrt (p * 2 ^ 64) mod M32) (primes 8).

(** Big-endian encoding of [x] on [n] bytes. *)
Fixpoint be_bytes (n : nat) (x : Z) : bytes :=
  match n with
  | O => []
  | S m => (x / 256 ^ Z.of_nat m) mod 256 :: be_bytes m x
  end.

Fixpoint be_word (b : bytes) (acc : Z) : Z :=
  match b with
  | [] => acc
  | x :: r => be_word r (acc * 256 + x)
  end.

(** Padding: a [1] bit, zeros up to 56 mod 64, then the bit length on 8 bytes. *)
Definition pad (msg : bytes) : bytes :=
  let len := Z.of_nat (List.length msg) in
  let zeros := Z.to_nat ((55 - len) mod 64) in
  msg ++ 128 :: List.repeat 0 zeros ++ be_bytes 8 (8 * len).

(** Cut a byte string into words of four bytes; [fuel] bounds the number of words. *)
Fixpoint words (fuel : nat) (b : bytes) : list Z :=
  match fuel, b with
  | S n, b0 :: b1 :: b2 :: b3 :: r => be_word [b0; b1; b2; b3] 0 :: words n r
  | _, _ => []
  end.

(** The message schedule, newest word first: [rw] is [W_{t-1}, W_{t-2}, ...]. *)
Fixpoint extend (n : nat) (rw : list Z) : list Z :=
  match n with
  | O => rw
  | S m =>
      let w := add32 (add32 (sigma1 (List.nth 1 rw 0)) (List.nth 6 rw 0))
                     (add32 (sigma0 (List.nth 14 rw 0)) (List.nth 15 rw 0)) in
      extend m (w :: rw)
  end.

Definition schedule (block : list Z) : list Z := List.rev (extend 48 (List.rev block)).

Record regs := Regs { ra : Z; rb : Z; rc : Z; rd : Z; re : Z; rf : Z; rg : Z; rh : Z }.

Definition round (s : regs) (kw : Z * Z) : regs :=
  let t1 := add32 (add32 (add32 (rh s) (Sigma1 (re s))) (Ch (re s) (rf s) (rg s)))
                  (add32 (fst kw) (snd kw)) in
  let t2 := add32 (Sigma0 (ra s)) (Maj (ra s) (rb s) (rc s)) in
  Regs (add32 t1 t2) (ra s) (rb s) (rc s) (add32 (rd s) t1) (re s) (rf s) (rg s).

Definition regs_of (h : list Z) : regs :=
  Regs (List.nth 0 h 0) (List.nth 1 h 0) (List.nth 2 h 0) (List.nth 3 h 0)
       (List.nth 4 h 0) (List.nth 5 h 0) (List.nth 6 h 0) (List.nth 7 h 0).

Definition list_of (s : regs) : list Z :=
  [ra s; rb s; rc s; rd s; re s; rf s; rg s; rh s].

Definition compress_block (h : list Z) (block : list Z) : list Z :=
  let s := List.fold_left round (List.combine K (schedule block)) (regs_of h) in
  List.map (fun p => add32 (fst p) (snd p)) (List.combine h (list_of s)).

Fixpoint blocks (fuel : nat) (w : list Z) (h : list Z) : list Z :=
  match fuel with
  | O => h
  | S n =>
      match w with
      | [] => h
      | _ => blocks n (List.skipn 16 w) (compress_block h (List.firstn 16 w))
      end
  end.

(** [createHash("sha256").update(msg).digest()]. *)
Definition sha256 (msg : bytes) : bytes :=
  let p := pad msg in
  let w := words (List.length p) p in
  List.concat (List.map (be_bytes 4) (blocks (List.length w) w H0)).

(** [createHmac("sha256", key).update(msg).digest()]. *)
Definition hmac (key msg : bytes) : bytes :=
  let k0 := if (64 <? Z.of_nat (List.length key)) then sha256 key else key in
  let k := k0 ++ List.repeat 0 (64 - List.length k0)%nat in
  let ipad := List.map (fun x => Z.lxor x 0x36) k in
  let opad := List.map (fun x => Z.lxor x 0x5c) k in
  sha256 (opad ++ sha256 (ipad ++ msg)).

End SHA256.

(** ** [src/common.ts] *)

Inductive EncryptionAlgorithm := Aes128Ctr | Aes192Ctr | Aes256Ctr.
Inductive CompressionAlgorithm := Zstd | Gzip | Brotli | Deflate.
Inductive TimestampFormat := Iso | Unix | TsNone.

Definition IV_SIZE : nat := 16.

(** The strings of [compressionAlgorithms]. *)
Definition compressionName (c : CompressionAlgorithm) : string :=
  match c with Zstd => "zstd" | Gzip => "gzip" | Brotli => "brotli" | Deflate => "deflate" end.

(** The key size OpenSSL demands for each cipher of [encryptionAlgorithms]. *)
Definition keyLength (e : EncryptionAlgorithm) : nat :=
  match e with Aes128Ctr => 16%nat | Aes192Ctr => 24%nat | Aes256Ctr => 32%nat end.

(** ** Results and errors *)

Inductive exn :=
| EInvalidKeyLength                      (* createCipheriv / createDecipheriv: "Invalid key length" *)
| ENoEntry (path : string)               (* ENOENT from stat / stream / readdir *)
| ETooSmall                              (* "Backup file is too small to contain IV" *)
| ES3Hash                                (* "Cannot compute hash for S3 files" *)
| EChecksum (expected : list Z) (got : string)
                                         (* "Checksum verification failed. Expected .., got .." *)
| ECorrupt                               (* the tar extractor reported an error *)
| ESinkEnd (path : string)               (* writer.end() rejected *)
| EWrite (path : string)                 (* Bun.file(path).write(..) rejected *)
| ENoTimestamp                           (* "Sliding backup window requires timestamp format to be enabled" *)
| EInvalidS3Url (url : string)           (* "Invalid S3 URL: .." *)
| ENoBucket (bucket : string).           (* S3Client.list rejected *)

Inductive result (A : Type) :=
| Ok (a : A)
| Err (e : exn)
| Pending.
Arguments Ok {A} a.
Arguments Err {A} e.
Arguments Pending {A}.

Abbreviation FS := (gmap string bytes).

(** ** The libraries and the runtime behind the pipeline

    [tar-stream], the Web compression streams, the AES block cipher behind
    [createCipheriv], [Bun.Glob], [node:path] and the chunking of streams
    are not part of the repository.  They are an interface here; the
    theorems state what they need of it at the point they need it. *)

Class Platform := {
  (** [pack()] fed the entries in order and finalized: the tar bytes. *)
  tar_pack : list (string * bytes) -> bytes;
  (** [extract()]: the entries it delivers, and whether it finished without error. *)
  tar_extract : bytes -> list (string * bytes) * bool;
  (** [new CompressionStream(alg)]: the bytes that come out for the bytes that go in. *)
  compress : CompressionAlgorithm -> bytes -> bytes;
  (** [new DecompressionStream(alg)]: the bytes delivered, and whether the input was well formed. *)
  decompress : CompressionAlgorithm -> bytes -> bytes * bool;
  (** Byte [i] of the AES-CTR key stream for a key and an IV. *)
  keystream : EncryptionAlgorithm -> bytes -> bytes -> nat -> Z;
  (** [new Glob(pattern).scan()] on a file system. *)
  scan : FS -> string -> list string;
  (** [path.join]. *)
  join : string -> string -> string;
  (** The sizes of the chunks in which the compressor's readable side
      delivers its bytes. *)
  pipe_chunking : bytes -> list nat;
  (** The sizes of the chunks in which [Bun.file(p).stream()] delivers a
      file's bytes. *)
  file_chunking : bytes -> list nat
}.

(** A stream over [b] that delivers chunks of the given sizes (what is
    left after the last size comes as one chunk); a stream over no bytes
    is done at once. *)
Fixpoint chunk_by (sizes : list nat) (b : bytes) : list bytes :=
  match b with
  | [] => []
  | _ =>
      match sizes with
      | [] => [b]
      | n :: r => List.firstn n b :: chunk_by r (List.skipn n b)
      end
  end.

Definition pipe_chunks {P : Platform} (b : bytes) : list bytes := chunk_by (pipe_chunking b) b.
Definition file_chunks {P : Platform} (b : bytes) : list bytes := chunk_by (file_chunking b) b.

(** What can go wrong at a destination: a [write]/[flush] of chunk [i] that
    rejects, an [end] that rejects, a sidecar write that rejects. *)
Record Faults := {
  writeFails : string -> nat -> bool;
  endFails : string -> bool;
  sidecarFails : string -> bool
}.

Definition noFaults : Faults :=
  {| writeFails := fun _ _ => false; endFails := fun _ => false; sidecarFails := fun _ => false |}.

(** ** The stream cipher ([createCipheriv] / [createDecipheriv] in CTR mode) *)

Record Cipher := { c_stream : nat -> Z; c_pos : nat }.

(** XOR of a chunk with the key stream from position [pos] on. *)
Fixpoint xor_from (ks : nat -> Z) (pos : nat) (b : bytes) : bytes :=
  match b with
  | [] => []
  | x :: r => Z.lxor x (ks pos) :: xor_from ks (S pos) r
  end.

(** [cipher.update(chunk)]: the transformed chunk and the advanced cipher. *)
Definition cipher_update (c : Cipher) (chunk : bytes) : bytes * Cipher :=
  (xor_from (c_stream c) (c_pos c) chunk,
   {| c_stream := c_stream c; c_pos := (c_pos c + List.length chunk)%nat |}).

(** [cipher.final()]: a stream cipher holds nothing back. *)
Definition cipher_final (c : Cipher) : bytes := [].

(** The [TransformStream] of [EncryptionStream] and [DecryptionStream]:
    [transform] enqueues [update(chunk)], [flush] enqueues [final()]. *)
Fixpoint transform_chunks (c : Cipher) (chunks : list bytes) : list bytes :=
  match chunks with
  | [] => [cipher_final c]
  | chunk :: r => let (out, c') := cipher_update c chunk in out :: transform_chunks c' r
  end.

Section Pipeline.
Context {P : Platform}.

(** [createCipheriv(algorithm, key, iv)]: it throws unless the key has
    the size of the algorithm and the IV has 16 bytes. *)
Definition createCipheriv (algorithm : EncryptionAlgorithm) (key iv : bytes) : result Cipher :=
  if (List.length key =? keyLength algorithm)%nat && (List.length iv =? 16)%nat
  then Ok {| c_stream := keystream algorithm key iv; c_pos := 0%nat |}
  else Err EInvalidKeyLength.

(** [createDecipheriv(algorithm, key, iv)]: in counter mode the same
    transformation. *)
Definition createDecipheriv := createCipheriv.

(** ** [src/backup.ts] *)

(** [randomBytes(n)] on a random tape. *)
Definition randomBytes (rand : nat -> Z) (n : nat) : bytes := List.map rand (List.seq 0 n).

(** [class EncryptionStream]: the IV and the ready cipher. *)
Definition EncryptionStream (algorithm : EncryptionAlgorithm) (key : bytes) (rand : nat -> Z)
  : result (bytes * Cipher) :=
  let iv := randomBytes rand 16 in
  match createCipheriv algorithm key iv with
  | Ok cipher => Ok (iv, cipher)
  | Err e => Err e
  | Pending => Pending
  end.

(** [readFiles]: the paths of every pattern, in order. *)
Definition readFiles (fs : FS) (patterns : list string) : list string :=
  List.flat_map (scan fs) patterns.

(** The loop of [createFileStream]: one entry per path, named by the path,
    holding every chunk of the stream of the file. *)
Fixpoint read_entries (fs : FS) (paths : list string) : result (list (string * bytes)) :=
  match paths with
  | [] => Ok []
  | path :: r =>
      match fs !! path with
      | None => Err (ENoEntry path)
      | Some content =>
          match read_entries fs r with
          | Ok es => Ok ((path, List.concat (file_chunks content)) :: es)
          | Err e => Err e
          | Pending => Pending
          end
      end
  end.

(** [createFileStream]: the bytes of the tar stream, or the error that
    destroys it. *)
Definition createFileStream (fs : FS) (patterns : list string) : result bytes :=
  match read_entries fs (readFiles fs patterns) with
  | Ok es => Ok (tar_pack es)
  | Err e => Err e
  | Pending => Pending
  end.

(** [prependIv]: the IV is enqueued first, then every chunk of the stream. *)
Definition prependIv (iv : bytes) (stream : list bytes) : list bytes := iv :: stream.

(** [createChecksumStream]: every chunk updates the hash; closing resolves
    the hex digest. *)
Definition createChecksumStream (stream : list bytes) : string :=
  hex_of_bytes (SHA256.sha256 (List.concat stream)).

(** A path that [Bun.file] takes for an object of the store. *)
Definition is_s3_url (path : string) : bool := startsWith path "s3://".

(** The content of a file that held [old] once [value] is written at
    offset [pos]: nothing is truncated, so what [old] holds past the
    bytes written stays. *)
Definition write_at (pos : nat) (value old : bytes) : bytes :=
  List.firstn pos old ++ List.repeat 0 (pos - List.length old)
  ++ value ++ List.skipn (pos + List.length value) old.

(** A writer: its path and the bytes it has written, which give its
    offset in the file. *)
Record Sink := { sink_path : string; sink_written : bytes }.

(** [Bun.file(outPath).writer()]: a local file that does not exist is
    created, empty; one that exists keeps its content. *)
Definition open_writer (fs : FS) (outPath : string) : FS :=
  if is_s3_url outPath then fs
  else match fs !! outPath with
       | Some _ => fs
       | None => <[outPath := []]> fs
       end.

(** [prepareOutputs]: a writer per output path. *)
Definition prepareOutputs (outputPaths : list string) (fs : FS) : list Sink * FS :=
  (List.map (fun outPath => {| sink_path := outPath; sink_written := [] |}) outputPaths,
   List.fold_left open_writer outputPaths fs).

(** [writer.write(value); await writer.flush()] for chunk number [i]: a
    rejection is settled and dropped; otherwise the chunk lands in the
    file at the offset of the writer, and an object of the store holds
    what its writer has written. *)
Definition sink_write (F : Faults) (i : nat) (value : bytes) (st : list Sink * FS) (writer : Sink)
  : list Sink * FS :=
  let path := sink_path writer in
  if writeFails F path i then (fst st ++ [writer], snd st)
  else
    let w := {| sink_path := path; sink_written := sink_written writer ++ value |} in
    let content :=
      if is_s3_url path then sink_written w
      else write_at (List.length (sink_written writer)) value (default [] (snd st !! path)) in
    (fst st ++ [w], <[path := content]> (snd st)).

(** The body of the loop of [writeToMultipleSinks]: one chunk to every writer. *)
Definition write_chunk (F : Faults) (i : nat) (value : bytes) (writers : list Sink) (fs : FS)
  : list Sink * FS :=
  List.fold_left (sink_write F i value) writers ([], fs).

Fixpoint write_chunks (F : Faults) (i : nat) (stream : list bytes) (writers : list Sink) (fs : FS)
  : list Sink * FS :=
  match stream with
  | [] => (writers, fs)
  | value :: r =>
      let (writers', fs') := write_chunk F i value writers fs in
      write_chunks F (S i) r writers' fs'
  end.

(** [for (const writer of writers) await writer.end()]: the first rejection
    is thrown. *)
Fixpoint end_all (F : Faults) (writers : list Sink) : result unit :=
  match writers with
  | [] => Ok tt
  | writer :: r => if endFails F (sink_path writer) then Err (ESinkEnd (sink_path writer)) else end_all F r
  end.

(** [writeToMultipleSinks]: every chunk to every writer, then the
    writers are ended in turn. *)
Definition writeToMultipleSinks (F : Faults) (stream : list bytes) (writers : list Sink) (fs : FS)
  : result unit * FS :=
  let (writers', fs') := write_chunks F 0 stream writers fs in
  (end_all F writers', fs').

(** [writeChecksumFiles]: the digest and a newline next to every output
    path, written with [Bun.file(checksumPath).write(text)], which
    replaces the content of the file. *)
Fixpoint writeChecksumFiles (F : Faults) (outputPaths : list string) (checksum : string) (fs : FS)
  : result unit * FS :=
  match outputPaths with
  | [] => (Ok tt, fs)
  | outputPath :: r =>
      let checksumPath := outputPath +:+ ".sha256" in
      if sidecarFails F checksumPath then (Err (EWrite checksumPath), fs)
      else writeChecksumFiles F r checksum (<[checksumPath := bytes_of_string (checksum +:+ String "010" "")]> fs)
  end.

(** [backup].  The result is the value the promise resolves to (the
    checksum) or the error it rejects with.  A source stream that errors
    rejects the call: the writers were made and the IV, enqueued before
    the source is read, has reached them; what else of the stream
    reached them before the error is left out. *)
Definition backup (F : Faults) (rand : nat -> Z)
    (patterns outputPaths : list string) (key : bytes)
    (encryptionAlgorithm : EncryptionAlgorithm) (compressionAlgorithm : CompressionAlgorithm)
    (fs : FS) : result string * FS :=
  match EncryptionStream encryptionAlgorithm key rand with
  | Err e => (Err e, fs)
  | Pending => (Pending, fs)
  | Ok (iv, cipher) =>
      let (sinks, fs0) := prepareOutputs outputPaths fs in
      match createFileStream fs patterns with
      | Err e => (Err e, snd (write_chunks F 0 [iv] sinks fs0))
      | Pending => (Pending, fs0)
      | Ok tar =>
          let compressedStream := pipe_chunks (compress compressionAlgorithm tar) in
          let encryptedStream := transform_chunks cipher compressedStream in
          let streamWithIv := prependIv iv encryptedStream in
          let checksum := createChecksumStream streamWithIv in
          match writeToMultipleSinks F streamWithIv sinks fs0 with
          | (Err e, fs1) => (Err e, fs1)
          | (Pending, fs1) => (Pending, fs1)
          | (Ok _, fs1) =>
              match writeChecksumFiles F outputPaths checksum fs1 with
              | (Err e, fs2) => (Err e, fs2)
              | (Pending, fs2) => (Pending, fs2)
              | (Ok _, fs2) => (Ok checksum, fs2)
              end
          end
      end
  end.

(** ** [src/restore.ts] *)

(** [createEncryptedStream]: what is left of the first chunk, when it is
    not empty, then every non-empty chunk the reader still delivers. *)
Definition createEncryptedStream (reader : list bytes) (firstChunk : bytes) : list bytes :=
  (if (0 <? List.length firstChunk)%nat then [firstChunk] else [])
  ++ List.filter (fun value => (0 <? List.length value)%nat) reader.

(** [class DecryptionStream]. *)
Definition DecryptionStream (algorithm : EncryptionAlgorithm) (key iv : bytes) (stream : list bytes)
  : result (list bytes) :=
  match createDecipheriv algorithm key iv with
  | Ok decipher => Ok (transform_chunks decipher stream)
  | Err e => Err e
  | Pending => Pending
  end.

(** [computeFileHash]. *)
Definition computeFileHash (filePath : string) (key : bytes) (fs : FS) : result string :=
  if startsWith filePath "s3" then Err ES3Hash
  else
    match fs !! filePath with
    | None => Err (ENoEntry filePath)
    | Some content => Ok (hex_of_bytes (SHA256.hmac key (List.concat (file_chunks content))))
    end.

(** [verifyChecksumFile]. *)
Definition verifyChecksumFile (source : string) (computedHash : string) (fs : FS) : result unit :=
  let checksumPath := source +:+ ".sha256" in
  match fs !! checksumPath with
  | None => Ok tt
  | Some content =>
      let expectedHash := trim (file_text content) in
      if negb (same_units (code_units computedHash) expectedHash)
      then Err (EChecksum expectedHash computedHash)
      else Ok tt
  end.

(** The ["entry"] handler of [extractFiles]: the content of the entry is
    written at [join(outputDir, header.name)] by a writer of the file
    there, from its start on; what a file that exists holds past the
    bytes written stays. *)
Definition write_entry (outputDir : string) (fs : FS) (entry : string * bytes) : FS :=
  let outputPath := join outputDir (fst entry) in
  <[outputPath := write_at 0 (snd entry) (default [] (fs !! outputPath))]> fs.

(** [extractFiles] on the decompressed stream, a pair of the bytes
    delivered and whether the decompressor ended without error.  An error
    of the decompressor is one of the piped source, to which nothing
    listens: the extractor is never ended and the promise never settles.
    An error of the extractor rejects.  Entries delivered before either
    have been written. *)
Definition extractFiles (stream : bytes * bool) (outputDir : string) (fs : FS) : result unit * FS :=
  let (entries, finished) := tar_extract (fst stream) in
  let fs' := List.fold_left (write_entry outputDir) entries fs in
  if negb (snd stream) then (Pending, fs')
  else if finished then (Ok tt, fs') else (Err ECorrupt, fs').

(** [restore]. *)
Definition restore (source outputDir : string) (key : bytes)
    (encryptionAlgorithm : EncryptionAlgorithm) (compressionAlgorithm : CompressionAlgorithm)
    (verifyChecksum : bool) (fs : FS) : result unit * FS :=
  match fs !! source with
  | None => (Err (ENoEntry source), fs)
  | Some content =>
      match file_chunks content with
      | [] => (Err ETooSmall, fs)
      | firstChunk :: reader =>
          if (List.length firstChunk <? IV_SIZE)%nat then (Err ETooSmall, fs)
          else
            let iv := List.firstn IV_SIZE firstChunk in
            let remainingFirstChunk := List.skipn IV_SIZE firstChunk in
            let encryptedStream := createEncryptedStream reader remainingFirstChunk in
            match DecryptionStream encryptionAlgorithm key iv encryptedStream with
            | Err e => (Err e, fs)
            | Pending => (Pending, fs)
            | Ok decryptedStream =>
                let extractStream := decompress compressionAlgorithm (List.concat decryptedStream) in
                match extractFiles extractStream outputDir fs with
                | (Err e, fs1) => (Err e, fs1)
                | (Pending, fs1) => (Pending, fs1)
                | (Ok _, fs1) =>
                    if verifyChecksum then
                      match computeFileHash source key fs1 with
                      | Err e => (Err e, fs1)
                      | Pending => (Pending, fs1)
                      | Ok backupFileHash => (verifyChecksumFile source backupFileHash fs1, fs1)
                      end
                    else (Ok tt, fs1)
                end
            end
      end
  end.

End Pipeline.

(** ** [src/cleanup.ts] *)

(** *** The regular expressions it builds

    [cleanupLocalBackups] and [cleanupS3Backups] build a [RegExp] from a
    string made of literal characters, [.] and a postfix [*], between [^]
    and [$].  That fragment is compiled and matched here; [.] matches any
    code unit but a line terminator. *)

Definition is_line_terminator (c : ascii) : bool :=
  let n := N_of_ascii c in ((n =? 10) || (n =? 13))%N.

Inductive atom := Lit (c : ascii) | Dot.

Definition atom_matches (a : atom) (c : ascii) : bool :=
  match a with
  | Lit x => (x =? c)%char
  | Dot => negb (is_line_terminator c)
  end.

(** An item is an atom and whether a [*] follows it. *)
Fixpoint compile (s : string) : list (atom * bool) :=
  match s with
  | EmptyString => []
  | String c r =>
      let a := if (c =? ".")%char then Dot else Lit c in
      match r with
      | String "*" r' => (a, true) :: compile r'
      | EmptyString => if (c =? "$")%char then [] else [(a, false)]
      | _ => (a, false) :: compile r
      end
  end.

(** Does the whole of [s] match the items?  A starred atom tries every
    number of repetitions. *)
Fixpoint re_match (items : list (atom * bool)) (s : string) : bool :=
  match items with
  | [] => (s =? "")%string
  | (a, false) :: r =>
      match s with
      | String c s' => atom_matches a c && re_match r s'
      | EmptyString => false
      end
  | (a, true) :: r =>
      (fix star (s : string) : bool :=
         re_match r s
         || match s with
            | String c s' => atom_matches a c && star s'
            | EmptyString => false
            end) s
  end.

(** [new RegExp(source).test(s)] for a source of the shape [^...$]. *)
Definition RegExp_test (source s : string) : bool :=
  match source with
  | String "^" body => re_match (compile body) s
  | _ => false
  end.

(** [pattern.replace(/\*/g, ".*")]. *)
Fixpoint replace_star (s : string) : string :=
  match s with
  | EmptyString => EmptyString
  | String c r =>
      if (c =? "*")%char then String "." (String "*" (replace_star r))
      else String c (replace_star r)
  end.

(** The filter of both cleanups: the test of a file name against the pattern. *)
Definition matchesPattern (backupPattern file : string) : bool :=
  let patternRegex := replace_star backupPattern in
  RegExp_test ("^" +:+ patternRegex +:+ "$") file.

Fixpoint strip_prefix (p s : string) : option string :=
  match p, s with
  | EmptyString, _ => Some s
  | String a p', String b s' => if (a =? b)%char then strip_prefix p' s' else None
  | _, EmptyString => None
  end.

(** The rest of a lazy group: the shortest run of code units, none a line
    terminator, that is followed by [.tar.]. *)
Fixpoint lazy_until_tar (s : string) : option string :=
  if startsWith s ".tar." then Some EmptyString
  else
    match s with
    | EmptyString => None
    | String c r =>
        if is_line_terminator c then None
        else match lazy_until_tar r with Some g => Some (String c g) | None => None end
    end.

(** [extractTimestamp]: [filename.match(/^backup_(.+?)\.tar\./)], the group
    or [null]. *)
Definition extractTimestamp (filename : string) : option string :=
  match strip_prefix "backup_" filename with
  | Some (String c r) =>
      if is_line_terminator c then None
      else match lazy_until_tar r with Some g => Some (String c g) | None => None end
  | _ => None
  end.

(** [a.localeCompare(b)] on timestamps: the sign of the comparison of
    the code units, which is the order the collation of the runtime
    gives strings of digits, [-] and [T].  On other characters (letters
    above all) the collation orders differently and is not modelled:
    the statements compare timestamps of these characters only. *)
Fixpoint localeCompare (a b : string) : Z :=
  match a, b with
  | EmptyString, EmptyString => 0
  | EmptyString, String _ _ => -1
  | String _ _, EmptyString => 1
  | String x a', String y b' =>
      if (N_of_ascii x <? N_of_ascii y)%N then -1
      else if (N_of_ascii y <? N_of_ascii x)%N then 1
      else localeCompare a' b'
  end.

(** The comparator given to [sort]. *)
Definition compareBackups (a b : string) : Z :=
  let timestampA := extractTimestamp a in
  let timestampB := extractTimestamp b in
  match timestampA, timestampB with
  | Some ta, Some tb => localeCompare tb ta
  | _, _ => 0
  end.

(** [Array.prototype.sort(cmp)], the merge sort of the runtime, from the
    bottom up: runs of one element, then of two, of four, ... are merged
    in pairs until one run is left.  In a merge the head of the right
    run goes first only when the comparator puts it before the head of
    the left run. *)
Fixpoint merge_by {A : Type} (cmp : A -> A -> Z) (left : list A) : list A -> list A :=
  fix merge_right (right : list A) : list A :=
    match left, right with
    | [], _ => right
    | _, [] => left
    | x :: left', y :: right' =>
        if cmp y x <? 0 then y :: merge_right right' else x :: merge_by cmp left' right
    end.

(** One pass: adjacent runs are merged in pairs; a last run without a
    partner is copied. *)
Fixpoint merge_pairs {A : Type} (cmp : A -> A -> Z) (runs : list (list A)) : list (list A) :=
  match runs with
  | a :: b :: r => merge_by cmp a b :: merge_pairs cmp r
  | _ => runs
  end.

(** The passes; a pass halves the number of runs, which bounds the
    [fuel]. *)
Fixpoint merge_passes {A : Type} (cmp : A -> A -> Z) (fuel : nat) (runs : list (list A))
  : list A :=
  match runs with
  | [] => []
  | [run] => run
  | _ =>
      match fuel with
      | O => List.concat runs
      | S n => merge_passes cmp n (merge_pairs cmp runs)
      end
  end.

Definition sort_by {A : Type} (cmp : A -> A -> Z) (l : list A) : list A :=
  merge_passes cmp (List.length l) (List.map (fun x => [x]) l).

(** [arr.slice(count)] for an integer [count]: a negative count is
    taken from the end. *)
Definition slice {A : Type} (count : Z) (l : list A) : list A :=
  let len := Z.of_nat (List.length l) in
  let start := if count <? 0 then Z.max (len + count) 0 else Z.min count len in
  List.skipn (Z.to_nat start) l.

(** *** The destinations

    A local directory is the list of the names [readdir] returns; a bucket
    is the list of its keys.  The trace records the calls made. *)

Inductive Op :=
| OpReaddir (dir : string)
| OpUnlink (dir file : string)
| OpList (bucket listPrefix : string)
| OpDelete (bucket key : string).

Record Store := {
  local : gmap string (list string);
  s3 : gmap string (list string);
  trace : list Op
}.

Definition log (o : Op) (st : Store) : Store :=
  {| local := local st; s3 := s3 st; trace := trace st ++ [o] |}.

Definition remove (x : string) (l : list string) : list string :=
  List.filter (fun y => negb (y =? x)%string) l.

(** [await unlink(join(destination, file)).catch(() => {})]. *)
Definition unlink (destination file : string) (st : Store) : Store :=
  {| local := alter (remove file) destination (local st);
     s3 := s3 st;
     trace := trace st ++ [OpUnlink destination file] |}.

(** [await S3Client.delete(key, { bucket }).catch(() => {})]. *)
Definition s3_delete (bucket key : string) (st : Store) : Store :=
  {| local := local st;
     s3 := alter (remove key) bucket (s3 st);
     trace := trace st ++ [OpDelete bucket key] |}.

(** [cleanupLocalBackups]. *)
Definition cleanupLocalBackups (destination : string) (count : Z) (backupPattern : string)
    (st : Store) : result unit * Store :=
  match local st !! destination with
  | None => (Err (ENoEntry destination), log (OpReaddir destination) st)
  | Some files =>
      let st := log (OpReaddir destination) st in
      let backupFiles := List.filter (matchesPattern backupPattern) files in
      if Z.of_nat (List.length backupFiles) <=? count then (Ok tt, st)
      else
        let sorted := sort_by compareBackups backupFiles in
        let filesToDelete := slice count sorted in
        (Ok tt,
         List.fold_left
           (fun st file => unlink destination (file +:+ ".sha256") (unlink destination file st))
           filesToDelete st)
  end.

Fixpoint take_until_slash (s : string) : string :=
  match s with
  | EmptyString => EmptyString
  | String c r => if (c =? "/")%char then EmptyString else String c (take_until_slash r)
  end.

Fixpoint drop_until_slash (s : string) : string :=
  match s with
  | EmptyString => EmptyString
  | String c r => if (c =? "/")%char then s else drop_until_slash r
  end.

Fixpoint has_line_terminator (s : string) : bool :=
  match s with
  | EmptyString => false
  | String c r => is_line_terminator c || has_line_terminator r
  end.

(** [parseS3Url]: [url.match(/^s3:\/\/([^\/]+)(?:\/(.+))?$/)]. *)
Definition parseS3Url (url : string) : result (string * string) :=
  match strip_prefix "s3://" url with
  | None => Err (EInvalidS3Url url)
  | Some rest =>
      let bucket := take_until_slash rest in
      match bucket, drop_until_slash rest with
      | EmptyString, _ => Err (EInvalidS3Url url)
      | _, EmptyString => Ok (bucket, EmptyString)
      | _, String _ EmptyString => Err (EInvalidS3Url url)
      | _, String _ pfx =>
          if has_line_terminator pfx then Err (EInvalidS3Url url) else Ok (bucket, pfx)
      end
  end.

Fixpoint has_slash (s : string) : bool :=
  match s with
  | EmptyString => false
  | String c r => (c =? "/")%char || has_slash r
  end.

(** [key.split("/").pop() || ""]. *)
Fixpoint lastSegment (s : string) : string :=
  match s with
  | EmptyString => EmptyString
  | String _ r => if has_slash s then lastSegment r else s
  end.

Fixpoint lastChar (s : string) : option ascii :=
  match s with
  | EmptyString => None
  | String c EmptyString => Some c
  | String _ r => lastChar r
  end.

(** [prefix ? (prefix.endsWith("/") ? prefix : `${prefix}/`) : ""]. *)
Definition listPrefixOf (pfx : string) : string :=
  match pfx with
  | EmptyString => EmptyString
  | _ => match lastChar pfx with
         | Some "/"%char => pfx
         | _ => pfx +:+ "/"
         end
  end.

(** The comparator of [cleanupS3Backups]: the file names of the keys are
    compared. *)
Definition compareKeys (a b : string) : Z :=
  compareBackups (lastSegment a) (lastSegment b).

(** [cleanupS3Backups].  [S3Client.list] delivers the keys of the bucket
    that start with the prefix (a listing that is not truncated); no
    [contents] or no keys returns at once. *)
Definition cleanupS3Backups (destination : string) (count : Z) (backupPattern : string)
    (st : Store) : result unit * Store :=
  match parseS3Url destination with
  | Err e => (Err e, st)
  | Pending => (Pending, st)
  | Ok (bucket, pfx) =>
      let listPrefix := listPrefixOf pfx in
      match s3 st !! bucket with
      | None => (Err (ENoBucket bucket), log (OpList bucket listPrefix) st)
      | Some keys =>
          let st := log (OpList bucket listPrefix) st in
          match List.filter (fun key => startsWith key listPrefix) keys with
          | [] => (Ok tt, st)
          | contents =>
              let backupFiles :=
                List.filter (fun key => matchesPattern backupPattern (lastSegment key)) contents in
              if Z.of_nat (List.length backupFiles) <=? count then (Ok tt, st)
              else
                let sorted := sort_by compareKeys backupFiles in
                let filesToDelete := slice count sorted in
                (Ok tt,
                 List.fold_left
                   (fun st fileKey => s3_delete bucket (fileKey +:+ ".sha256") (s3_delete bucket fileKey st))
                   filesToDelete st)
          end
      end
  end.

(** [cleanupOldBackups]. *)
Definition cleanupOldBackups (destination : string) (count : Z) (timestampFormat : TimestampFormat)
    (compressionAlgorithm : CompressionAlgorithm) (st : Store) : result unit * Store :=
  match timestampFormat with
  | TsNone => (Err ENoTimestamp, st)
  | _ =>
      let backupPattern := "backup_*.tar." +:+ compressionName compressionAlgorithm +:+ ".crypt" in
      if startsWith destination "s3://"
      then cleanupS3Backups destination count backupPattern st
      else cleanupLocalBackups destination count backupPattern st
  end.

(** ** A small executable platform

    An instance of the interface on which the pipeline can be run: a
    length-prefixed container in place of tar, a one-byte tag in place of
    a compression format, an arithmetic key stream, literal paths in
    place of globs. *)

Module Toy.

(** The name an entry of the container carries: a code unit per byte. *)
Definition string_of_bytes (b : bytes) : string :=
  string_of_list_ascii (List.map ascii_of_byte b).

Definition pack_entry (e : string * bytes) : bytes :=
  let name := bytes_of_string (fst e) in
  Z.of_nat (List.length name) :: name ++ Z.of_nat (List.length (snd e)) :: snd e.

Definition pack (es : list (string * bytes)) : bytes := List.concat (List.map pack_entry es).

Fixpoint extract_fuel (fuel : nat) (b : bytes) : list (string * bytes) * bool :=
  match fuel, b with
  | _, [] => ([], true)
  | O, _ => ([], false)
  | S n, ln :: r =>
      let name := List.firstn (Z.to_nat ln) r in
      match List.skipn (Z.to_nat ln) r with
      | [] => ([], false)
      | lc :: r' =>
          let (es, ok) := extract_fuel n (List.skipn (Z.to_nat lc) r') in
          ((string_of_bytes name, List.firstn (Z.to_nat lc) r') :: es, ok)
      end
  end.

Definition extract (b : bytes) : list (string * bytes) * bool := extract_fuel (List.length b) b.

Definition tag (c : CompressionAlgorithm) : Z :=
  match c with Zstd => 1 | Gzip => 2 | Brotli => 3 | Deflate => 4 end.

Definition deflate (c : CompressionAlgorithm) (b : bytes) : bytes := tag c :: b.

Definition inflate (c : CompressionAlgorithm) (b : bytes) : bytes * bool :=
  match b with
  | t :: r => if t =? tag c then (r, true) else ([], false)
  | [] => ([], false)
  end.

Definition sum (b : bytes) : Z := List.fold_right Z.add 0 b.

Definition stream (e : EncryptionAlgorithm) (key iv : bytes) (i : nat) : Z :=
  (sum key + 3 * sum iv + 31 * Z.of_nat i + Z.of_nat (keyLength e)) mod 256.

Definition glob (fs : FS) (pattern : string) : list string :=
  match fs !! pattern with
  | Some _ => [pattern]
  | None => []
  end.

Definition path_join (dir name : string) : string := dir +:+ "/" +:+ name.

#[export] Instance platform : Platform := {|
  tar_pack := pack;
  tar_extract := extract;
  compress := deflate;
  decompress := inflate;
  keystream := stream;
  scan := glob;
  join := path_join;
  pipe_chunking := fun _ => [4%nat; 4%nat];
  file_chunking := fun _ => [20%nat]
|}.

End Toy.
(** ** Notions the statements use *)

(** The name of the sidecar of an archive. *)
Definition sidecar (name : string) : string := name +:+ ".sha256".

(** The layout an archive is specified to have: the IV, then the key
    stream of the key and that IV applied to [compress(tar(entries))]. *)
Definition spec_archive {P : Platform} (iv key : bytes) (ealg : EncryptionAlgorithm)
    (calg : CompressionAlgorithm) (entries : list (string * bytes)) : bytes :=
  iv ++ xor_from (keystream ealg key iv) 0 (compress calg (tar_pack entries)).

(** Printable ASCII: code units that are their own UTF-8 and that [trim]
    leaves. *)
Definition printable (u : Z) : bool := (33 <=? u) && (u <=? 126).

(** What a writer leaves at its path once it has written [written],
    where the path held [old] when the writer was made: in a file, the
    bytes written followed by what [old] holds past them; in the object
    store, the bytes written. *)
Definition overwritten (written old : bytes) : bytes :=
  written ++ List.skipn (List.length written) old.

Definition landed (path : string) (old : option bytes) (chunks : list bytes) : option bytes :=
  if is_s3_url path then
    match chunks with
    | [] => old
    | _ => Some (List.concat chunks)
    end
  else Some (overwritten (List.concat chunks) (default [] old)).

(** The same faults, with other rejections of [write]/[flush]. *)
Definition withWriteFaults (F : Faults) (wf : string -> nat -> bool) : Faults :=
  {| writeFails := wf; endFails := endFails F; sidecarFails := sidecarFails F |}.

(** Inputs on which the pipeline is run. *)
Module Run.

Definition files : FS := <["test/a.txt" := [98]]> (<["test/b.txt" := [97; 10]]> ∅).
Definition key : bytes := List.repeat 7 32.
Definition tape (i : nat) : Z := (11 * Z.of_nat i) mod 256.
Definition patterns : list string := ["test/a.txt"; "test/b.txt"].
Definition outputPaths : list string := ["out/b1"; "out/b2"].

(** The second destination rejects the write of chunk 1. *)
Definition secondRejects : Faults :=
  withWriteFaults noFaults (fun path i => (path =? "out/b2")%string && (i =? 1)%nat).

Definition backup_with (F : Faults) : result string * FS :=
  backup (P := Toy.platform) F tape patterns outputPaths key Aes256Ctr Zstd files.

(** The file system after a backup without faults. *)
Definition after_backup : FS := snd (backup_with noFaults).

Definition restore_from (verify : bool) (fs : FS) : result unit * FS :=
  restore (P := Toy.platform) "out/b1" "restored" key Aes256Ctr Zstd verify fs.


(** A backup to an object store, its sidecar then removed. *)
Definition s3_source : string := "s3://bucket/b1".

Definition s3_without_sidecar : FS :=
  delete (sidecar s3_source)
    (snd (backup (P := Toy.platform) noFaults tape patterns [s3_source] key Aes256Ctr Zstd files)).

(** A source of three bytes. *)
Definition short_source : FS := <["out/b1" := [1; 2; 3]]> ∅.

(** The first destination holds 300 bytes of an earlier archive. *)
Definition stale_destination : FS := <["out/b1" := List.repeat 9 300]> files.

(** The output directory holds an earlier, longer version of a file. *)
Definition stale_output : FS :=
  <["restored/test/a.txt" := [111; 108; 100; 101; 114; 32; 97; 10]]> after_backup.

End Run.

(** The name [createBackupFilename] gives an archive when timestamps are
    enabled: [`backup_${timestamp}.tar.${compressionAlgorithm}.crypt`]. *)
Definition archiveName (timestamp : string) (alg : CompressionAlgorithm) : string :=
  "backup_" +:+ timestamp +:+ ".tar." +:+ compressionName alg +:+ ".crypt".

(** The pattern of [cleanupOldBackups]. *)
Definition backupPatternOf (alg : CompressionAlgorithm) : string :=
  "backup_*.tar." +:+ compressionName alg +:+ ".crypt".

(** The characters of the timestamps [createTimestamp] produces: digits,
    [-] and [T]. *)
Definition is_timestamp_char (c : ascii) : bool :=
  let n := N_of_ascii c in
  ((48 <=? n) && (n <=? 57) || (n =? 45) || (n =? 84))%N.

Fixpoint all_chars (f : ascii -> bool) (s : string) : bool :=
  match s with
  | EmptyString => true
  | String c r => f c && all_chars f r
  end.

Definition wellFormedTimestamp (ts : string) : bool :=
  match ts with
  | EmptyString => false
  | _ => all_chars is_timestamp_char ts
  end.

(** The pattern read as the glob it is written as: [*] stands for any
    run of characters, every other character for itself. *)
Fixpoint spec_glob_match (pattern s : string) : bool :=
  match pattern with
  | EmptyString => (s =? "")%string
  | String p pattern' =>
      if (p =? "*")%char then
        (fix star (s : string) : bool :=
           spec_glob_match pattern' s
           || match s with
              | String _ s' => star s'
              | EmptyString => false
              end) s
      else
        match s with
        | String c s' => (p =? c)%char && spec_glob_match pattern' s'
        | EmptyString => false
        end
  end.

Definition inb (x : string) (l : list string) : bool := List.existsb (String.eqb x) l.

(** Neither deleted nor the sidecar of a deleted name. *)
Definition kept_after (deleted : list string) (x : string) : bool :=
  negb (inb x deleted) && negb (inb x (List.map sidecar deleted)).

(** What a destination holds: the entries of the directory, or the keys
    of the bucket. *)
Definition contents (destination : string) (st : Store) : option (list string) :=
  if startsWith destination "s3://" then
    match parseS3Url destination with
    | Ok (bucket, _) => s3 st !! bucket
    | _ => None
    end
  else local st !! destination.

(** The names cleanup lists there: every entry of a directory, the keys
    under the prefix in a bucket. *)
Definition listed (destination x : string) : bool :=
  if startsWith destination "s3://" then
    match parseS3Url destination with
    | Ok (_, pfx) => startsWith x (listPrefixOf pfx)
    | _ => false
    end
  else true.

(** The file name cleanup looks at. *)
Definition fileName (destination x : string) : string :=
  if startsWith destination "s3://" then lastSegment x else x.

(** The names cleanup takes for backups. *)
Definition isBackup (destination : string) (alg : CompressionAlgorithm) (x : string) : bool :=
  listed destination x && matchesPattern (backupPatternOf alg) (fileName destination x).



(** Destinations on which cleanup is run. *)
Module Dirs.

Definition newest : string := "backup_2024-03-01T00-00-00.tar.zstd.crypt".
Definition middle : string := "backup_2024-02-01T00-00-00.tar.zstd.crypt".
Definition oldest : string := "backup_2024-01-01T00-00-00.tar.zstd.crypt".

(** Matches the pattern, holds no timestamp. *)
Definition unparseable : string := "backup_.tar.zstd.crypt".

(** Not a file the glob [backup_*.tar.zstd.crypt] matches. *)
Definition unrelated : string := "backup_db_tar_zstd_crypt".

Definition store_of (entries : list string) : Store :=
  {| local := <["dst" := entries]> ∅; s3 := ∅; trace := [] |}.

Definition three : Store :=
  store_of [oldest; sidecar oldest; newest; sidecar newest; "notes.txt"; middle; sidecar middle].

(** Two archives and a file that is none. *)
Definition stray : Store := store_of [unrelated; oldest; newest].

Definition bucket : Store :=
  {| local := ∅;
     s3 := <["bucket" := ["daily/" +:+ oldest; "daily/" +:+ sidecar oldest; "daily/" +:+ newest;
                          "other/" +:+ middle; "daily/" +:+ middle]]> ∅;
     trace := [] |}.

End Dirs.

(** ** [src/generateKey.ts] *)

(** [generateKey]: 32 bytes of the random tape. *)
Definition generateKey (rand : nat -> Z) : bytes := randomBytes rand 32.

(** ** [src/cli.ts]: how archives are named and placed *)

Definition digit_char (d : Z) : ascii := ascii_of_N (Z.to_N (48 + d)).

(** The decimal digits of [n >= 0] in front of [acc]; a number has no
    more decimal digits than binary ones, which bounds the [fuel]. *)
Fixpoint digits_of (fuel : nat) (n : Z) (acc : string) : string :=
  match fuel with
  | O => acc
  | S f =>
      let acc' := String (digit_char (n mod 10)) acc in
      if n <? 10 then acc' else digits_of f (n / 10) acc'
  end.

(** [n.toString()] for an integer below 10^21 in size, as every number
    [Date] delivers is. *)
Definition Number_toString (n : Z) : string :=
  if n <? 0 then String "-" (digits_of (S (Z.to_nat (Z.log2 (- n)))) (- n) EmptyString)
  else digits_of (S (Z.to_nat (Z.log2 n))) n EmptyString.

(** [n] characters of [padString] repeated, starting at [cur]. *)
Fixpoint take_cycle (n : nat) (padString cur : string) : string :=
  match n with
  | O => EmptyString
  | S m =>
      match cur with
      | String c r => String c (take_cycle m padString r)
      | EmptyString =>
          match padString with
          | String c r => String c (take_cycle m padString r)
          | EmptyString => EmptyString
          end
      end
  end.

(** [s.padStart(targetLength, padString)]. *)
Definition padStart (targetLength : nat) (padString s : string) : string :=
  take_cycle (targetLength - String.length s) padString padString +:+ s.

(** What [new Date()] gives [createTimestamp]: the parts of the local time. *)
Record DateParts := {
  getFullYear : Z;
  getMonth : Z;
  getDate : Z;
  getHours : Z;
  getMinutes : Z;
  getSeconds : Z
}.

(** [createTimestamp], for the milliseconds [Date.now()] returns and the
    parts of [new Date()]. *)
Definition createTimestamp (format : TimestampFormat) (now : Z) (d : DateParts) : string :=
  match format with
  | TsNone => EmptyString
  | Unix => Number_toString (now / 1000)
  | Iso =>
      Number_toString (getFullYear d) +:+ "-"
      +:+ padStart 2 "0" (Number_toString (getMonth d + 1)) +:+ "-"
      +:+ padStart 2 "0" (Number_toString (getDate d)) +:+ "T"
      +:+ padStart 2 "0" (Number_toString (getHours d)) +:+ "-"
      +:+ padStart 2 "0" (Number_toString (getMinutes d)) +:+ "-"
      +:+ padStart 2 "0" (Number_toString (getSeconds d))
  end.

(** [createBackupFilename]. *)
Definition createBackupFilename (timestampFormat : TimestampFormat)
    (compressionAlgorithm : CompressionAlgorithm) (now : Z) (d : DateParts) : string :=
  let timestamp := createTimestamp timestampFormat now d in
  match timestampFormat with
  | TsNone => "backup.tar." +:+ compressionName compressionAlgorithm +:+ ".crypt"
  | _ => "backup_" +:+ timestamp +:+ ".tar." +:+ compressionName compressionAlgorithm +:+ ".crypt"
  end.

(** The output path [executeBackup] builds for a destination:
    [`${dest}${separator}${filename}`]. *)
Definition outputPathOf (dest filename : string) : string :=
  let separator := match lastChar dest with Some "/"%char => "" | _ => "/" end in
  dest +:+ separator +:+ filename.

(** ** More notions the statements use *)

(** [n] on [w] decimal digits, the most significant first. *)
Fixpoint decimal (w : nat) (n : Z) : string :=
  match w with
  | O => EmptyString
  | S w' => String (digit_char (n / 10 ^ Z.of_nat w' mod 10)) (decimal w' n)
  end.

Definition sign_of (c : comparison) : Z :=
  match c with Lt => -1 | Eq => 0 | Gt => 1 end.

Definition then_compare (c1 c2 : comparison) : comparison :=
  match c1 with Eq => c2 | _ => c1 end.

(** The order of local dates: year, month, day, hours, minutes, seconds. *)
Definition date_compare (a b : DateParts) : comparison :=
  then_compare (getFullYear a ?= getFullYear b)
    (then_compare (getMonth a ?= getMonth b)
       (then_compare (getDate a ?= getDate b)
          (then_compare (getHours a ?= getHours b)
             (then_compare (getMinutes a ?= getMinutes b) (getSeconds a ?= getSeconds b))))).

(** The parts [Date] delivers, for a year of four digits. *)
Definition four_digit_date (d : DateParts) : Prop :=
  1000 <= getFullYear d <= 9999 /\ 0 <= getMonth d <= 11 /\ 1 <= getDate d <= 31
  /\ 0 <= getHours d <= 23 /\ 0 <= getMinutes d <= 59 /\ 0 <= getSeconds d <= 59.

(** The chunks of a stream, numbered from [i], whose write to [path] is
    not rejected. *)
Fixpoint accepted (F : Faults) (path : string) (i : nat) (stream : list bytes) : list bytes :=
  match stream with
  | [] => []
  | value :: r =>
      if writeFails F path i then accepted F path (S i) r
      else value :: accepted F path (S i) r
  end.

(** The small platform, with file streams that deliver 8 bytes first. *)
Definition toy_small_chunks : Platform := {|
  tar_pack := Toy.pack;
  tar_extract := Toy.extract;
  compress := Toy.deflate;
  decompress := Toy.inflate;
  keystream := Toy.stream;
  scan := Toy.glob;
  join := Toy.path_join;
  pipe_chunking := fun _ => [4%nat; 4%nat];
  file_chunking := fun _ => [8%nat]
|}.

(** The published test vectors: FIPS 180-4 ("abc", the empty message) and
    RFC 4231, test case 2. *)
Example sha256_abc :
  hex_of_bytes (SHA256.sha256 (bytes_of_string "abc"))
  = "ba7816bf8f01cfea414140de5dae2223b00361a396177a9cb410ff61f20015ad".
Proof. vm_compute. reflexivity. Qed.

Example sha256_empty :
  hex_of_bytes (SHA256.sha256 [])
  = "e3b0c44298fc1c149afbf4c8996fb92427ae41e4649b934ca495991b7852b855".
Proof. vm_compute. reflexivity. Qed.

Example hmac_rfc4231_2 :
  hex_of_bytes (SHA256.hmac (bytes_of_string "Jefe") (bytes_of_string "what do ya want for nothing?"))
  = "5bdcc146bf60754e6a042426089575c75a003f089d2739839dec58b964ec3843".
Proof. vm_compute. reflexivity. Qed.

(** ** Streams and the cipher *)

Lemma firstn_app_exact {A : Type} (a b : list A) (n : nat) :
  List.length a = n -> List.firstn n (a ++ b) = a.
Proof. intros <-. induction a as [|x a IH]; simpl; [now destruct b | now rewrite IH]. Qed.

Lemma skipn_app_exact {A : Type} (a b : list A) (n : nat) :
  List.length a = n -> List.skipn n (a ++ b) = b.
Proof. intros <-. induction a as [|x a IH]; simpl; [reflexivity | exact IH]. Qed.

Lemma chunk_by_concat (sizes : list nat) (b : bytes) :
  List.concat (chunk_by sizes b) = b.
Proof.
  revert b. induction sizes as [|n sizes IH]; intros [|x b]; simpl; try reflexivity.
  - now rewrite List.app_nil_r.
  - rewrite IH. apply (List.firstn_skipn n (x :: b)).
Qed.

Lemma xor_from_app (ks : nat -> Z) (pos : nat) (a b : bytes) :
  xor_from ks pos (a ++ b) = xor_from ks pos a ++ xor_from ks (pos + List.length a) b.
Proof.
  revert pos. induction a as [|x a IH]; intros pos; simpl.
  - now rewrite Nat.add_0_r.
  - rewrite IH. now replace (S pos + List.length a)%nat with (pos + S (List.length a))%nat by lia.
Qed.

Lemma xor_from_involutive (ks : nat -> Z) (pos : nat) (b : bytes) :
  xor_from ks pos (xor_from ks pos b) = b.
Proof.
  revert pos. induction b as [|x b IH]; intros pos; simpl; [reflexivity|].
  rewrite IH, Z.lxor_assoc, Z.lxor_nilpotent, Z.lxor_0_r. reflexivity.
Qed.

Lemma xor_from_length (ks : nat -> Z) (pos : nat) (b : bytes) :
  List.length (xor_from ks pos b) = List.length b.
Proof. revert pos. induction b; intros; simpl; auto. Qed.

(** Whatever the chunk boundaries, the transform stream delivers the key
    stream applied to the whole input. *)
Lemma transform_chunks_concat (c : Cipher) (chunks : list bytes) :
  List.concat (transform_chunks c chunks) = xor_from (c_stream c) (c_pos c) (List.concat chunks).
Proof.
  revert c. induction chunks as [|ch chunks IH]; intros c; simpl; [reflexivity|].
  rewrite IH, xor_from_app. reflexivity.
Qed.

Lemma concat_filter_nonempty (l : list bytes) :
  List.concat (List.filter (fun value => (0 <? List.length value)%nat) l) = List.concat l.
Proof.
  induction l as [|x l IH]; simpl; [reflexivity|].
  destruct x; simpl; [exact IH|]. now rewrite IH.
Qed.

Lemma createEncryptedStream_concat (reader : list bytes) (firstChunk : bytes) :
  List.concat (createEncryptedStream reader firstChunk) = firstChunk ++ List.concat reader.
Proof.
  unfold createEncryptedStream. rewrite List.concat_app, concat_filter_nonempty.
  destruct firstChunk; simpl; [reflexivity|]. now rewrite List.app_nil_r.
Qed.

Lemma randomBytes_length (rand : nat -> Z) (n : nat) : List.length (randomBytes rand n) = n.
Proof. unfold randomBytes. now rewrite List.length_map, List.length_seq. Qed.

Section PipelineFacts.
Context {P : Platform}.

Lemma file_chunks_concat (b : bytes) : List.concat (file_chunks b) = b.
Proof. apply chunk_by_concat. Qed.

Lemma pipe_chunks_concat (b : bytes) : List.concat (pipe_chunks b) = b.
Proof. apply chunk_by_concat. Qed.

(** C8: a restore source whose content is shorter than 16 bytes fails with
    the "too small to contain IV" error whatever the key, the algorithms,
    the output directory and the verification flag are (so before a
    decipher is built), and the file system is left as it was. *)
Theorem restore_too_small (source outputDir : string) (key : bytes)
    (ealg : EncryptionAlgorithm) (calg : CompressionAlgorithm) (verify : bool)
    (fs : FS) (content : bytes) :
  fs !! source = Some content ->
  (List.length content < IV_SIZE)%nat ->
  restore source outputDir key ealg calg verify fs = (Err ETooSmall, fs).
Proof.
  intros Hsrc Hlen. unfold restore. rewrite Hsrc.
  pose proof (file_chunks_concat content) as Hcat.
  destruct (file_chunks content) as [|firstChunk reader]; [reflexivity|].
  assert (Hfirst : (List.length firstChunk <= List.length content)%nat).
  { rewrite <- Hcat. simpl. rewrite List.length_app. lia. }
  destruct (Nat.ltb_spec (List.length firstChunk) IV_SIZE); [reflexivity | lia].
Qed.

End PipelineFacts.

(** C6: with the timestamp format "none", cleanup is rejected for every
    keep count, destination and compression algorithm; the stores and the
    trace of calls are those it was given: nothing was listed or deleted. *)
Theorem cleanup_rejects_disabled_timestamps (destination : string) (count : Z)
    (alg : CompressionAlgorithm) (st : Store) :
  cleanupOldBackups destination count TsNone alg st = (Err ENoTimestamp, st).
Proof. reflexivity. Qed.


(** ** Writing into a file that exists *)

Lemma overwritten_fits (written old : bytes) :
  (List.length old <= List.length written)%nat -> overwritten written old = written.
Proof.
  intros H. unfold overwritten. rewrite List.skipn_all2 by exact H. apply List.app_nil_r.
Qed.


Lemma write_at_overwritten (acc value old : bytes) :
  write_at (List.length acc) value (overwritten acc old) = overwritten (acc ++ value) old.
Proof.
  unfold write_at, overwritten.
  rewrite (firstn_app_exact acc _ _ eq_refl).
  replace (List.length acc - List.length (acc ++ List.skipn (List.length acc) old))%nat
    with 0%nat by (rewrite List.length_app; lia).
  simpl. rewrite <- List.app_assoc. do 2 f_equal.
  rewrite List.skipn_app, List.skipn_all2 by lia.
  replace (List.length acc + List.length value - List.length acc)%nat
    with (List.length value) by lia.
  rewrite List.skipn_skipn, List.length_app. simpl. f_equal. lia.
Qed.

Lemma write_at_again (acc value old : bytes) :
  write_at (List.length acc) value (overwritten (acc ++ value) old)
  = overwritten (acc ++ value) old.
Proof.
  unfold write_at, overwritten.
  rewrite <- List.app_assoc, (firstn_app_exact acc _ _ eq_refl).
  replace (List.length acc
           - List.length (acc ++ value ++ List.skipn (List.length (acc ++ value)) old))%nat
    with 0%nat by (rewrite List.length_app; lia).
  simpl. do 2 f_equal.
  rewrite List.app_assoc. apply skipn_app_exact. now rewrite List.length_app.
Qed.

(** One more chunk written by a writer of [p], on a file that holds
    what the writers of [p] have left so far. *)
Lemma landed_next (p : string) (orig : option bytes) (cs : list bytes) (v : bytes)
    (cur : option bytes) :
  cur = landed p orig cs \/ cur = landed p orig (cs ++ [v]) ->
  Some (if is_s3_url p then List.concat cs ++ v
        else write_at (List.length (List.concat cs)) v (default [] cur))
  = landed p orig (cs ++ [v]).
Proof.
  intros H. unfold landed in *. rewrite List.concat_app in *. simpl List.concat in *.
  rewrite List.app_nil_r in *.
  destruct (is_s3_url p).
  - destruct (cs ++ [v]) eqn:He; [|reflexivity]. now apply List.app_eq_nil in He as [_ He].
  - f_equal. destruct H as [-> | ->]; simpl; [apply write_at_overwritten | apply write_at_again].
Qed.

(** ** The fan-out writer *)

Section SinkFacts.
Context {P : Platform}.
Variable F : Faults.

Lemma sink_write_fold_paths (i : nat) (v : bytes) (ws : list Sink) :
  forall (done : list Sink) (fs : FS),
    List.map sink_path (fst (List.fold_left (sink_write F i v) ws (done, fs)))
    = List.map sink_path done ++ List.map sink_path ws.
Proof.
  induction ws as [|w ws IH]; intros done fs; simpl.
  - now rewrite List.app_nil_r.
  - unfold sink_write at 2. simpl.
    destruct (writeFails F (sink_path w) i); rewrite IH, List.map_app, <- List.app_assoc; reflexivity.
Qed.

Lemma write_chunk_paths (i : nat) (v : bytes) (ws : list Sink) (fs : FS) :
  List.map sink_path (fst (write_chunk F i v ws fs)) = List.map sink_path ws.
Proof. unfold write_chunk. now rewrite sink_write_fold_paths. Qed.

Lemma write_chunks_paths (stream : list bytes) :
  forall (i : nat) (ws : list Sink) (fs : FS),
    List.map sink_path (fst (write_chunks F i stream ws fs)) = List.map sink_path ws.
Proof.
  induction stream as [|v stream IH]; intros i ws fs; simpl; [reflexivity|].
  pose proof (write_chunk_paths i v ws fs) as Hp.
  destruct (write_chunk F i v ws fs) as [ws1 fs1]. simpl in Hp. now rewrite IH.
Qed.

(** A path no writer writes to is left alone. *)
Lemma sink_write_fold_frame (i : nat) (v : bytes) (q : string) (ws : list Sink) :
  forall (done : list Sink) (fs : FS),
    ~ In q (List.map sink_path ws) ->
    snd (List.fold_left (sink_write F i v) ws (done, fs)) !! q = fs !! q.
Proof.
  induction ws as [|w ws IH]; intros done fs Hq; simpl; [reflexivity|].
  simpl in Hq. unfold sink_write at 2. simpl.
  destruct (writeFails F (sink_path w) i); rewrite IH by tauto; [reflexivity|].
  apply lookup_insert_ne. tauto.
Qed.

Lemma write_chunks_frame (q : string) (stream : list bytes) :
  forall (i : nat) (ws : list Sink) (fs : FS),
    ~ In q (List.map sink_path ws) ->
    snd (write_chunks F i stream ws fs) !! q = fs !! q.
Proof.
  induction stream as [|v stream IH]; intros i ws fs Hq; simpl; [reflexivity|].
  pose proof (write_chunk_paths i v ws fs) as Hp.
  pose proof (sink_write_fold_frame i v q ws [] fs Hq) as Hf.
  unfold write_chunk in *.
  destruct (List.fold_left (sink_write F i v) ws ([], fs)) as [ws1 fs1]. simpl in *.
  rewrite IH by now rewrite Hp. exact Hf.
Qed.

(** A chunk whose write is not rejected at [p]: every writer on [p] has
    written it, and the path holds it after the chunks before it. *)
Lemma sink_write_fold_accepted (i : nat) (v : bytes) (p : string) (orig : option bytes)
    (cs : list bytes) (ws : list Sink) :
  writeFails F p i = false ->
  forall (done : list Sink) (fs : FS),
    (forall w, In w ws -> sink_path w = p -> sink_written w = List.concat cs) ->
    (forall w, In w done -> sink_path w = p -> sink_written w = List.concat (cs ++ [v])) ->
    (fs !! p = landed p orig cs \/ fs !! p = landed p orig (cs ++ [v])) ->
    (In p (List.map sink_path done) -> fs !! p = landed p orig (cs ++ [v])) ->
    let r := List.fold_left (sink_write F i v) ws (done, fs) in
    (forall w, In w (fst r) -> sink_path w = p -> sink_written w = List.concat (cs ++ [v]))
    /\ (In p (List.map sink_path done ++ List.map sink_path ws) ->
        snd r !! p = landed p orig (cs ++ [v])).
Proof.
  intros Hp. induction ws as [|w ws IH]; intros done fs Hws Hdone Hcur Hfs; simpl.
  - rewrite List.app_nil_r. split; assumption.
  - unfold sink_write at 2 4. simpl.
    assert (Hrest : forall w0, In w0 ws -> sink_path w0 = p -> sink_written w0 = List.concat cs)
      by (intros; apply Hws; simpl; auto).
    destruct (writeFails F (sink_path w) i) eqn:Hw.
    + assert (Hne : sink_path w <> p) by congruence.
      specialize (IH (done ++ [w]) fs Hrest).
      rewrite List.map_app, <- List.app_assoc in IH. simpl in IH. apply IH.
      * intros w0 [Hin|[<-|[]]]%List.in_app_or Hw0; [now apply Hdone | contradiction].
      * exact Hcur.
      * intros [Hin|[Heq|[]]]%List.in_app_or; [now apply Hfs | contradiction].
    + match goal with |- context [<[sink_path w := ?c]> fs] => set (content := c) end.
      set (w' := {| sink_path := sink_path w; sink_written := sink_written w ++ v |}).
      specialize (IH (done ++ [w']) (<[sink_path w := content]> fs) Hrest).
      rewrite List.map_app, <- List.app_assoc in IH. simpl in IH.
      destruct (decide (sink_path w = p)) as [Heq|Hne].
      * assert (Hnew : <[sink_path w := content]> fs !! p = landed p orig (cs ++ [v])).
        { rewrite Heq, lookup_insert_eq. subst content.
          rewrite Heq, (Hws w (or_introl eq_refl) Heq). now apply landed_next. }
        apply IH.
        -- intros w0 [Hin|[<-|[]]]%List.in_app_or Hw0; [now apply Hdone|].
           simpl. rewrite (Hws w (or_introl eq_refl) Heq), List.concat_app. simpl.
           now rewrite List.app_nil_r.
        -- now right.
        -- intros _. exact Hnew.
      * apply IH.
        -- intros w0 [Hin|[<-|[]]]%List.in_app_or Hw0; [now apply Hdone | contradiction].
        -- now rewrite lookup_insert_ne.
        -- rewrite lookup_insert_ne by assumption.
           intros [Hin|[Heq|[]]]%List.in_app_or; [now apply Hfs | contradiction].
Qed.

(** A write that is rejected leaves the writers of that destination and
    what it holds as they were. *)
Lemma sink_write_fold_rejected (i : nat) (v : bytes) (p : string) (acc : bytes)
    (ws : list Sink) :
  writeFails F p i = true ->
  forall (done : list Sink) (fs : FS),
    (forall w, In w ws -> sink_path w = p -> sink_written w = acc) ->
    (forall w, In w done -> sink_path w = p -> sink_written w = acc) ->
    let r := List.fold_left (sink_write F i v) ws (done, fs) in
    (forall w, In w (fst r) -> sink_path w = p -> sink_written w = acc)
    /\ snd r !! p = fs !! p.
Proof.
  intros Hp. induction ws as [|w ws IH]; intros done fs Hws Hdone; simpl.
  - split; [assumption | reflexivity].
  - unfold sink_write at 2 4. simpl.
    assert (Hrest : forall w0, In w0 ws -> sink_path w0 = p -> sink_written w0 = acc)
      by (intros; apply Hws; simpl; auto).
    destruct (writeFails F (sink_path w) i) eqn:Hw.
    + apply IH; [exact Hrest|].
      intros w0 [Hin|[<-|[]]]%List.in_app_or Hw0; [now apply Hdone | apply Hws; simpl; auto].
    + assert (Hne : sink_path w <> p) by congruence.
      match goal with |- context [<[sink_path w := ?c]> fs] => set (content := c) end.
      destruct (IH (done ++ [{| sink_path := sink_path w; sink_written := sink_written w ++ v |}])
                  (<[sink_path w := content]> fs) Hrest) as [H1 H2].
      * intros w0 [Hin|[<-|[]]]%List.in_app_or Hw0; [now apply Hdone | contradiction].
      * split; [exact H1|]. rewrite H2. now apply lookup_insert_ne.
Qed.

(** What the writers leave at a path: the chunks whose write was not
    rejected there, in order. *)
Lemma write_chunks_landed (p : string) (orig : option bytes) (stream : list bytes) :
  forall (i : nat) (ws : list Sink) (fs : FS) (cs : list bytes),
    (forall w, In w ws -> sink_path w = p -> sink_written w = List.concat cs) ->
    In p (List.map sink_path ws) ->
    fs !! p = landed p orig cs ->
    snd (write_chunks F i stream ws fs) !! p = landed p orig (cs ++ accepted F p i stream).
Proof.
  induction stream as [|v stream IH]; intros i ws fs cs Hws Hin Hcur.
  - simpl. now rewrite List.app_nil_r.
  - simpl.
    pose proof (write_chunk_paths i v ws fs) as Hpaths.
    destruct (writeFails F p i) eqn:Hp.
    + pose proof (sink_write_fold_rejected i v p (List.concat cs) ws Hp [] fs Hws) as Hstep.
      unfold write_chunk in *.
      destruct (List.fold_left (sink_write F i v) ws ([], fs)) as [ws1 fs1]. simpl in *.
      destruct Hstep as [Hws1 Hfs1]; [intros ? []|].
      apply IH; [exact Hws1 | now rewrite Hpaths | congruence].
    + pose proof (sink_write_fold_accepted i v p orig cs ws Hp [] fs Hws) as Hstep.
      unfold write_chunk in *.
      destruct (List.fold_left (sink_write F i v) ws ([], fs)) as [ws1 fs1]. simpl in *.
      destruct Hstep as [Hws1 Hfs1]; [intros ? [] | now left | intros [] |].
      replace (cs ++ v :: accepted F p (S i) stream) with ((cs ++ [v]) ++ accepted F p (S i) stream)
        by now rewrite <- List.app_assoc.
      apply IH; [exact Hws1 | now rewrite Hpaths | now apply Hfs1].
Qed.

Lemma accepted_all (p : string) (stream : list bytes) :
  (forall i, writeFails F p i = false) -> forall i, accepted F p i stream = stream.
Proof.
  intros Hp. induction stream as [|v stream IH]; intros i; simpl; [reflexivity|].
  now rewrite Hp, IH.
Qed.



Lemma writeChecksumFiles_ok (outs : list string) (c : string) :
  forall (fs fs' : FS),
    writeChecksumFiles F outs c fs = (Ok tt, fs') ->
    forall q,
      (In q (List.map (fun p => p +:+ ".sha256") outs) ->
       fs' !! q = Some (bytes_of_string (c +:+ String "010" "")))
      /\ (~ In q (List.map (fun p => p +:+ ".sha256") outs) -> fs' !! q = fs !! q).
Proof.
  induction outs as [|p outs IH]; intros fs fs' H q; simpl in *.
  - injection H as <-. tauto.
  - destruct (sidecarFails F (p +:+ ".sha256")); [discriminate|].
    destruct (IH _ _ H q) as [IH1 IH2].
    destruct (List.in_dec string_dec q (List.map (fun p0 => p0 +:+ ".sha256") outs)) as [Hin|Hnin].
    + split; [intros _; now apply IH1 | tauto].
    + split.
      * intros [<-|Hin]; [|contradiction]. rewrite IH2 by assumption. apply lookup_insert_eq.
      * intros Hn. rewrite IH2 by assumption. apply lookup_insert_ne. tauto.
Qed.

End SinkFacts.

(** ** The writers made for the output paths *)

Lemma open_writer_content (fs : FS) (o p : string) :
  default [] (open_writer fs o !! p) = default [] (fs !! p).
Proof.
  unfold open_writer. destruct (is_s3_url o); [reflexivity|].
  destruct (fs !! o) eqn:Ho; [reflexivity|].
  destruct (decide (o = p)) as [<-|Hne].
  - now rewrite lookup_insert_eq, Ho.
  - now rewrite lookup_insert_ne.
Qed.

Lemma open_writer_keeps (fs : FS) (o p : string) :
  is_Some (fs !! p) -> is_Some (open_writer fs o !! p).
Proof.
  intros H. unfold open_writer. destruct (is_s3_url o); [exact H|].
  destruct (fs !! o) eqn:Ho; [exact H|].
  destruct (decide (o = p)) as [<-|Hne].
  - rewrite lookup_insert_eq. eauto.
  - now rewrite lookup_insert_ne.
Qed.

Lemma open_writer_other (fs : FS) (o p : string) :
  o <> p \/ is_s3_url p = true -> open_writer fs o !! p = fs !! p.
Proof.
  intros H. unfold open_writer. destruct (is_s3_url o) eqn:Hs; [reflexivity|].
  destruct (fs !! o) eqn:Ho; [reflexivity|].
  apply lookup_insert_ne. destruct H as [H|H]; [exact H | congruence].
Qed.

Lemma open_writers_other (outs : list string) (p : string) :
  forall fs : FS,
    ~ In p outs \/ is_s3_url p = true ->
    List.fold_left open_writer outs fs !! p = fs !! p.
Proof.
  induction outs as [|o outs IH]; intros fs H; simpl; [reflexivity|].
  rewrite IH by (simpl in H; tauto).
  apply open_writer_other. simpl in H. destruct H as [H|H]; [left; tauto | now right].
Qed.

Lemma open_writers_content (outs : list string) (p : string) :
  forall fs : FS, default [] (List.fold_left open_writer outs fs !! p) = default [] (fs !! p).
Proof.
  induction outs as [|o outs IH]; intros fs; simpl; [reflexivity|].
  now rewrite IH, open_writer_content.
Qed.

Lemma open_writers_keep (outs : list string) (p : string) :
  forall fs : FS, is_Some (fs !! p) -> is_Some (List.fold_left open_writer outs fs !! p).
Proof.
  induction outs as [|o outs IH]; intros fs H; simpl; [exact H|].
  now apply IH, open_writer_keeps.
Qed.

(** Once the writers are made a destination holds what it held, and a
    local one exists. *)
Lemma prepareOutputs_landed (outs : list string) (fs : FS) (p : string) :
  In p outs -> snd (prepareOutputs outs fs) !! p = landed p (fs !! p) [].
Proof.
  intros Hin. unfold prepareOutputs, landed. simpl.
  destruct (is_s3_url p) eqn:Hs.
  - apply open_writers_other. now right.
  - assert (Hex : is_Some (List.fold_left open_writer outs fs !! p)).
    { clear -Hin Hs. revert fs. induction outs as [|o outs IH]; intros fs; [destruct Hin|].
      simpl. destruct (decide (o = p)) as [->|Hne].
      - apply open_writers_keep. unfold open_writer. rewrite Hs.
        destruct (fs !! p) eqn:Hp; [rewrite Hp; eauto|]. rewrite lookup_insert_eq. eauto.
      - apply IH. destruct Hin as [Heq|Hin]; [contradiction | exact Hin]. }
    destruct Hex as [c Hc]. rewrite Hc. f_equal.
    pose proof (open_writers_content outs p fs) as Hd. rewrite Hc in Hd. exact Hd.
Qed.

Lemma prepareOutputs_frame (outs : list string) (fs : FS) (q : string) :
  ~ In q outs -> snd (prepareOutputs outs fs) !! q = fs !! q.
Proof. intros H. unfold prepareOutputs. simpl. apply open_writers_other. now left. Qed.

Lemma prepareOutputs_paths (outs : list string) (fs : FS) :
  List.map sink_path (fst (prepareOutputs outs fs)) = outs.
Proof. unfold prepareOutputs. simpl. rewrite List.map_map. simpl. apply List.map_id. Qed.

Lemma prepareOutputs_fresh (outs : list string) (fs : FS) (w : Sink) :
  In w (fst (prepareOutputs outs fs)) -> sink_written w = [].
Proof.
  unfold prepareOutputs. simpl. intros H.
  apply List.in_map_iff in H as (? & <- & _). reflexivity.
Qed.

(** ** Backup *)

Section BackupFacts.
Context {P : Platform}.

Lemma createCipheriv_ok (ealg : EncryptionAlgorithm) (key iv : bytes) (c : Cipher) :
  createCipheriv ealg key iv = Ok c ->
  List.length key = keyLength ealg /\ c = {| c_stream := keystream ealg key iv; c_pos := 0%nat |}.
Proof.
  unfold createCipheriv.
  destruct (Nat.eqb_spec (List.length key) (keyLength ealg)); simpl; [|discriminate].
  destruct (List.length iv =? 16)%nat; [|discriminate].
  intros [= <-]. auto.
Qed.

(** What the fan-out of a stream to the writers of [outs] leaves at a
    destination. *)
Lemma fan_out_landed (F : Faults) (stream : list bytes) (outs : list string) (fs : FS)
    (out : string) :
  In out outs ->
  snd (writeToMultipleSinks F stream (fst (prepareOutputs outs fs)) (snd (prepareOutputs outs fs)))
  !! out
  = landed out (fs !! out) (accepted F out 0 stream).
Proof.
  intros Hin. unfold writeToMultipleSinks.
  pose proof (write_chunks_landed F out (fs !! out) stream 0%nat (fst (prepareOutputs outs fs))
                (snd (prepareOutputs outs fs)) []) as H.
  destruct (write_chunks F 0 stream _ _) as [ws fs1].
  apply H.
  - intros w Hw _. now apply prepareOutputs_fresh in Hw.
  - now rewrite prepareOutputs_paths.
  - now apply prepareOutputs_landed.
Qed.

(** What a call of [backup] that resolves has done. *)
Lemma backup_inv (F : Faults) (rand : nat -> Z) (patterns outs : list string) (key : bytes)
    (ealg : EncryptionAlgorithm) (calg : CompressionAlgorithm) (fs fs' : FS) (checksum : string) :
  backup F rand patterns outs key ealg calg fs = (Ok checksum, fs') ->
  exists entries fs1,
    let iv := randomBytes rand 16 in
    let cipher := {| c_stream := keystream ealg key iv; c_pos := 0%nat |} in
    let stream := prependIv iv (transform_chunks cipher (pipe_chunks (compress calg (tar_pack entries)))) in
    List.length key = keyLength ealg
    /\ read_entries fs (readFiles fs patterns) = Ok entries
    /\ checksum = createChecksumStream stream
    /\ writeToMultipleSinks F stream (fst (prepareOutputs outs fs)) (snd (prepareOutputs outs fs))
       = (Ok tt, fs1)
    /\ writeChecksumFiles F outs checksum fs1 = (Ok tt, fs').
Proof.
  unfold backup, EncryptionStream, createFileStream. intros H.
  destruct (createCipheriv ealg key (randomBytes rand 16)) as [c| |] eqn:Hc; [|discriminate..].
  apply createCipheriv_ok in Hc as [Hkey ->].
  destruct (prepareOutputs outs fs) as [sinks fs0].
  destruct (read_entries fs (readFiles fs patterns)) as [entries| |] eqn:He; [|discriminate..].
  destruct (writeToMultipleSinks _ _ _ _) as [[[]| |] fs1] eqn:Hw; [|discriminate..].
  destruct (writeChecksumFiles _ _ _ _) as [[[]| |] fs2] eqn:Hs; [|discriminate..].
  injection H as <- <-. exists entries, fs1. simpl. auto.
Qed.

Lemma stream_concat (iv key : bytes) (ealg : EncryptionAlgorithm) (calg : CompressionAlgorithm)
    (entries : list (string * bytes)) :
  List.concat
    (prependIv iv
       (transform_chunks {| c_stream := keystream ealg key iv; c_pos := 0%nat |}
          (pipe_chunks (compress calg (tar_pack entries)))))
  = spec_archive iv key ealg calg entries.
Proof.
  unfold prependIv, spec_archive. simpl.
  now rewrite transform_chunks_concat, pipe_chunks_concat.
Qed.

(** What a resolved [backup] leaves at a destination whose writes were
    never rejected, and next to every destination: the archive, followed
    in a file that existed by what it held past the length of the
    archive; and the digest of the archive in the sidecar. *)
Lemma backup_outputs (F : Faults) (rand : nat -> Z) (patterns outs : list string) (key : bytes)
    (ealg : EncryptionAlgorithm) (calg : CompressionAlgorithm) (fs fs' : FS) (checksum : string) :
  backup F rand patterns outs key ealg calg fs = (Ok checksum, fs') ->
  exists entries,
    let archive := spec_archive (randomBytes rand 16) key ealg calg entries in
    List.length key = keyLength ealg
    /\ read_entries fs (readFiles fs patterns) = Ok entries
    /\ checksum = hex_of_bytes (SHA256.sha256 archive)
    /\ (forall out, In out outs -> (forall i, writeFails F out i = false) ->
        ~ In out (List.map sidecar outs) ->
        fs' !! out
        = Some (if is_s3_url out then archive
                else overwritten archive (default [] (fs !! out))))
    /\ (forall out, In out outs ->
        fs' !! sidecar out = Some (bytes_of_string (checksum +:+ String "010" ""))).
Proof.
  intros H. apply backup_inv in H as (entries & fs1 & Hkey & He & Hsum & Hw & Hs).
  exists entries. cbv zeta in *.
  unfold createChecksumStream in Hsum. rewrite stream_concat in Hsum.
  repeat split; try assumption.
  - intros out Hin Hout Hside.
    destruct (writeChecksumFiles_ok F outs checksum fs1 fs' Hs out) as [_ ->]; [|exact Hside].
    match type of Hw with writeToMultipleSinks F ?st _ _ = _ => set (stream := st) in * end.
    pose proof (fan_out_landed F stream outs fs out Hin) as Hl.
    rewrite Hw, (accepted_all F out stream Hout) in Hl.
    etransitivity; [exact Hl|].
    unfold landed. rewrite <- stream_concat. fold stream.
    destruct (is_s3_url out); [|reflexivity].
    subst stream. reflexivity.
  - intros out Hin.
    destruct (writeChecksumFiles_ok F outs checksum fs1 fs' Hs (sidecar out)) as [-> _]; [reflexivity|].
    apply List.in_map_iff. eauto.
Qed.


End BackupFacts.

(** ** Restore *)



Section RestoreFacts.
Context {P : Platform}.



(** Extraction only adds files. *)
Lemma write_entries_keeps (outputDir k : string) (entries : list (string * bytes)) :
  forall fs : FS,
    is_Some (fs !! k) -> is_Some (List.fold_left (write_entry outputDir) entries fs !! k).
Proof.
  induction entries as [|e entries IH]; intros fs H; simpl; [exact H|].
  apply IH. unfold write_entry. destruct (decide (join outputDir (fst e) = k)) as [<-|Hne].
  - rewrite lookup_insert_eq. eauto.
  - now rewrite lookup_insert_ne.
Qed.


(** Verification is a last step after the restore proper. *)
Lemma restore_verify (source outputDir : string) (key : bytes)
    (ealg : EncryptionAlgorithm) (calg : CompressionAlgorithm) (fs : FS) :
  restore source outputDir key ealg calg true fs
  = match restore source outputDir key ealg calg false fs with
    | (Ok _, fs1) =>
        match computeFileHash source key fs1 with
        | Err e => (Err e, fs1)
        | Pending => (Pending, fs1)
        | Ok backupFileHash => (verifyChecksumFile source backupFileHash fs1, fs1)
        end
    | (Err e, fs1) => (Err e, fs1)
    | (Pending, fs1) => (Pending, fs1)
    end.
Proof.
  unfold restore.
  destruct (fs !! source) as [content|]; [|reflexivity].
  destruct (file_chunks content) as [|firstChunk reader]; [reflexivity|].
  destruct (List.length firstChunk <? IV_SIZE)%nat; [reflexivity|].
  destruct (DecryptionStream _ _ _ _) as [decryptedStream| |]; [|reflexivity..].
  destruct (extractFiles _ _ _) as [[[]| |] fs1]; reflexivity.
Qed.

(** A restore that gets as far as extracting leaves the source in place. *)
Lemma restore_keeps_source (source outputDir : string) (key : bytes)
    (ealg : EncryptionAlgorithm) (calg : CompressionAlgorithm) (fs fs1 : FS) :
  restore source outputDir key ealg calg false fs = (Ok tt, fs1) ->
  is_Some (fs1 !! source).
Proof.
  unfold restore.
  destruct (fs !! source) as [content|] eqn:Hsrc; [|discriminate].
  destruct (file_chunks content) as [|firstChunk reader]; [discriminate|].
  destruct (List.length firstChunk <? IV_SIZE)%nat; [discriminate|].
  destruct (DecryptionStream _ _ _ _) as [decryptedStream| |]; [|discriminate..].
  unfold extractFiles. destruct (tar_extract _) as [entries finished].
  destruct (negb _); [discriminate|]. destruct finished; intros [= <-].
  apply write_entries_keeps. rewrite Hsrc. eauto.
Qed.


(** C9 (as the code has it): with verification enabled, a source that
    does not start with "s3", and no sidecar next to it once the files are
    extracted, restore does just what it does with verification off: the
    step is skipped without an error. *)
Theorem restore_skips_missing_sidecar (source outputDir : string) (key : bytes)
    (ealg : EncryptionAlgorithm) (calg : CompressionAlgorithm) (fs : FS) :
  startsWith source "s3" = false ->
  snd (restore source outputDir key ealg calg false fs) !! sidecar source = None ->
  restore source outputDir key ealg calg true fs
  = restore source outputDir key ealg calg false fs.
Proof.
  intros Hs3 Hnone. rewrite restore_verify.
  destruct (restore source outputDir key ealg calg false fs) as [[[]|e|] fs1] eqn:Hr;
    [|reflexivity..].
  destruct (restore_keeps_source _ _ _ _ _ _ _ Hr) as [content Hsrc]. simpl in Hnone.
  unfold computeFileHash. rewrite Hs3, Hsrc.
  unfold verifyChecksumFile. fold (sidecar source). now rewrite Hnone.
Qed.

End RestoreFacts.

(** ** Backup and restore together *)

Section RoundTrip.
Context {P : Platform}.

(** X23: the layout of what a resolved backup leaves at a destination whose
    writes were not rejected: the archive, that is the IV drawn for the
    call (16 bytes) and then the stream cipher, under the key and that
    IV, of compress(tar(entries)); in a local file that existed, the
    archive is followed by what the file held past its length.  The
    file is the archive when the destination did not exist or was no
    longer than the archive. *)
Theorem archive_layout (F : Faults) (rand : nat -> Z) (patterns outs : list string) (key : bytes)
    (ealg : EncryptionAlgorithm) (calg : CompressionAlgorithm) (fs fs' : FS) (checksum : string)
    (out : string) :
  backup F rand patterns outs key ealg calg fs = (Ok checksum, fs') ->
  In out outs ->
  (forall i, writeFails F out i = false) ->
  ~ In out (List.map sidecar outs) ->
  exists entries archive,
    read_entries fs (readFiles fs patterns) = Ok entries
    /\ fs' !! out
       = Some (if is_s3_url out then archive else overwritten archive (default [] (fs !! out)))
    /\ List.firstn 16 archive = randomBytes rand 16
    /\ List.length (List.firstn 16 archive) = 16%nat
    /\ List.skipn 16 archive
       = xor_from (keystream ealg key (List.firstn 16 archive)) 0 (compress calg (tar_pack entries))
    /\ ((forall old, fs !! out = Some old -> (List.length old <= List.length archive)%nat) ->
        fs' !! out = Some archive).
Proof.
  intros H Hin Hout Hside.
  apply backup_outputs in H as (entries & _ & He & _ & Harch & _).
  exists entries, (spec_archive (randomBytes rand 16) key ealg calg entries).
  pose proof (randomBytes_length rand 16) as Hlen.
  assert (Hiv : List.firstn 16 (spec_archive (randomBytes rand 16) key ealg calg entries)
                = randomBytes rand 16).
  { unfold spec_archive. now apply firstn_app_exact. }
  split; [exact He|]. split; [now apply Harch|]. split; [exact Hiv|].
  rewrite Hiv. split; [exact Hlen|].
  split; [unfold spec_archive; now apply skipn_app_exact|].
  intros Hfresh. rewrite (Harch out Hin Hout Hside).
  destruct (is_s3_url out); [reflexivity|]. f_equal. apply overwritten_fits.
  destruct (fs !! out) as [old|]; simpl; [now apply Hfresh | lia].
Qed.


End RoundTrip.

(** ** The pipeline on concrete inputs *)

(** A source of three bytes is too small. *)
Lemma restore_too_small_witness :
  Run.restore_from true Run.short_source = (Err ETooSmall, Run.short_source).
Proof.
  apply (restore_too_small (P := Toy.platform) "out/b1" "restored" Run.key Aes256Ctr Zstd true
           Run.short_source [1; 2; 3]).
  - reflexivity.
  - unfold IV_SIZE. simpl. lia.
Defined.

Lemma run_backup :
  Run.backup_with noFaults
  = (Ok "1eacb568704760d514520bc3f09a20d11deda5a0cbc0dea40752a66a249938fd", Run.after_backup).
Proof. vm_compute. reflexivity. Qed.

Lemma run_entries :
  read_entries (P := Toy.platform) Run.files (readFiles (P := Toy.platform) Run.files Run.patterns)
  = Ok [("test/a.txt", [98]); ("test/b.txt", [97; 10])].
Proof. vm_compute. reflexivity. Qed.

Lemma run_no_sidecar_clash (out : string) :
  In out Run.outputPaths -> ~ In out (List.map sidecar Run.outputPaths).
Proof.
  intros [<-|[<-|[]]] [H|[H|[]]]; discriminate H.
Qed.

(** The layout of the archive the run leaves at its first destination,
    which did not exist. *)
Lemma archive_layout_witness :
  exists entries archive,
    read_entries (P := Toy.platform) Run.files (readFiles (P := Toy.platform) Run.files Run.patterns)
    = Ok entries
    /\ Run.after_backup !! "out/b1" = Some archive
    /\ List.firstn 16 archive = randomBytes Run.tape 16
    /\ List.length (List.firstn 16 archive) = 16%nat
    /\ List.skipn 16 archive
       = xor_from (Toy.stream Aes256Ctr Run.key (List.firstn 16 archive)) 0
           (Toy.deflate Zstd (Toy.pack entries)).
Proof.
  destruct (archive_layout (P := Toy.platform) noFaults Run.tape Run.patterns Run.outputPaths Run.key
              Aes256Ctr Zstd Run.files Run.after_backup
              "1eacb568704760d514520bc3f09a20d11deda5a0cbc0dea40752a66a249938fd" "out/b1")
    as (entries & archive & He & _ & Hiv & Hlen & Hct & Hfresh).
  - exact run_backup.
  - simpl. auto.
  - intros i. reflexivity.
  - apply run_no_sidecar_clash. simpl. auto.
  - exists entries, archive.
    split; [exact He|]. split; [|split; [exact Hiv | split; [exact Hlen | exact Hct]]].
    apply Hfresh. intros old Hold. vm_compute in Hold. discriminate Hold.
Defined.


(** C4, the code at the failing input: a backup to a destination that
    holds 300 bytes of an earlier archive resolves with the digest of the
    new archive of 44 bytes, and the destination holds that archive
    followed by the last 256 bytes of what it held: bytes [16,end) are
    not the cipher output, and the digest is not that of the file.  The
    second destination, which did not exist, holds the archive. *)
Theorem backup_over_longer_file_keeps_tail :
  let archive := spec_archive (P := Toy.platform) (randomBytes Run.tape 16) Run.key Aes256Ctr Zstd
                   [("test/a.txt", [98]); ("test/b.txt", [97; 10])] in
  let r := backup (P := Toy.platform) noFaults Run.tape Run.patterns Run.outputPaths Run.key
             Aes256Ctr Zstd Run.stale_destination in
  List.length archive = 44%nat
  /\ fst r = Ok (hex_of_bytes (SHA256.sha256 archive))
  /\ snd r !! "out/b2" = Some archive
  /\ snd r !! "out/b1" = Some (archive ++ List.repeat 9 256)
  /\ hex_of_bytes (SHA256.sha256 (archive ++ List.repeat 9 256))
     <> hex_of_bytes (SHA256.sha256 archive).
Proof.
  repeat split; try (vm_compute; reflexivity).
  intros H. vm_compute in H. discriminate H.
Qed.

(** C1, the code at the failing input: the output of a backup restored
    into a directory that holds an earlier version of a file, of eight
    bytes.  The restore resolves, and the file holds the one byte
    archived followed by the last seven bytes of the earlier version. *)
Theorem restore_over_longer_file_keeps_tail :
  fst (Run.backup_with noFaults)
  = Ok "1eacb568704760d514520bc3f09a20d11deda5a0cbc0dea40752a66a249938fd"
  /\ Run.files !! "test/a.txt" = Some [98]
  /\ Run.stale_output !! "out/b1" = Run.after_backup !! "out/b1"
  /\ Run.stale_output !! "restored/test/a.txt" = Some [111; 108; 100; 101; 114; 32; 97; 10]
  /\ fst (Run.restore_from false Run.stale_output) = Ok tt
  /\ snd (Run.restore_from false Run.stale_output) !! "restored/test/a.txt"
     = Some [98; 108; 100; 101; 114; 32; 97; 10]
  /\ snd (Run.restore_from false Run.stale_output) !! "restored/test/b.txt" = Some [97; 10].
Proof. repeat split; vm_compute; reflexivity. Qed.




(** C9, refuted as stated: with verification on and no sidecar next to
    the source, the restore of an object-store source rejects. *)
Lemma restore_without_sidecar_rejects_s3 :
  Run.s3_without_sidecar !! sidecar Run.s3_source = None
  /\ fst (restore (P := Toy.platform) Run.s3_source "restored" Run.key Aes256Ctr Zstd false
            Run.s3_without_sidecar) = Ok tt
  /\ fst (restore (P := Toy.platform) Run.s3_source "restored" Run.key Aes256Ctr Zstd true
            Run.s3_without_sidecar) = Err ES3Hash.
Proof. repeat split; vm_compute; reflexivity. Qed.

(** The run with the sidecar of the local source removed. *)
Lemma restore_skips_missing_sidecar_witness :
  Run.restore_from true (delete (sidecar "out/b1") Run.after_backup)
  = Run.restore_from false (delete (sidecar "out/b1") Run.after_backup).
Proof.
  apply (restore_skips_missing_sidecar (P := Toy.platform) "out/b1" "restored" Run.key
           Aes256Ctr Zstd (delete (sidecar "out/b1") Run.after_backup)).
  - reflexivity.
  - vm_compute. reflexivity.
Defined.
(** ** Retention: names and timestamps *)

Lemma timestamp_char_plain (c : ascii) (rest : string) :
  is_timestamp_char c = true ->
  is_line_terminator c = false /\ startsWith (String c rest) ".tar." = false.
Proof.
  destruct c as [[] [] [] [] [] [] [] []]; vm_compute; intros H; try discriminate H; auto.
Qed.

Lemma lazy_until_tar_timestamp (r tail : string) :
  all_chars is_timestamp_char r = true ->
  lazy_until_tar (r +:+ ".tar." +:+ tail) = Some r.
Proof.
  induction r as [|c r IH]; intros H.
  - reflexivity.
  - simpl in H. apply andb_true_iff in H as [Hc Hr].
    destruct (timestamp_char_plain c (r +:+ ".tar." +:+ tail) Hc) as [Hlt Hpre].
    change (String c r +:+ ".tar." +:+ tail) with (String c (r +:+ ".tar." +:+ tail)).
    unfold lazy_until_tar; fold lazy_until_tar.
    rewrite Hpre, Hlt, (IH Hr). reflexivity.
Qed.

(** A name made by backup gives back its timestamp. *)
Lemma extractTimestamp_archiveName (ts : string) (alg : CompressionAlgorithm) :
  wellFormedTimestamp ts = true ->
  extractTimestamp (archiveName ts alg) = Some ts.
Proof.
  destruct ts as [|c r]; [discriminate|]. simpl. intros H.
  apply andb_true_iff in H as [Hc Hr].
  destruct (timestamp_char_plain c EmptyString Hc) as [Hlt _].
  unfold extractTimestamp, archiveName. simpl. rewrite Hlt.
  now rewrite (lazy_until_tar_timestamp r _ Hr).
Qed.

Lemma archiveName_inj (t1 t2 : string) (alg : CompressionAlgorithm) :
  wellFormedTimestamp t1 = true -> wellFormedTimestamp t2 = true ->
  archiveName t1 alg = archiveName t2 alg -> t1 = t2.
Proof.
  intros H1 H2 Heq.
  apply extractTimestamp_archiveName with (alg := alg) in H1, H2. congruence.
Qed.

(** ** Retention: the order of timestamps *)


Lemma localeCompare_range (a b : string) :
  localeCompare a b = -1 \/ localeCompare a b = 0 \/ localeCompare a b = 1.
Proof.
  revert b. induction a as [|x a IH]; intros [|y b]; simpl; auto.
  destruct (N_of_ascii x <? N_of_ascii y)%N; auto.
  destruct (N_of_ascii y <? N_of_ascii x)%N; auto.
Qed.




(** ** Retention: the sort *)

Lemma concat_singletons {A : Type} (l : list A) : List.concat (List.map (fun x => [x]) l) = l.
Proof. induction l as [|x l IH]; simpl; [reflexivity | now rewrite IH]. Qed.

Section SortFacts.
Context {A : Type} (cmp : A -> A -> Z).

Lemma merge_by_cons (x : A) (l : list A) (y : A) (r : list A) :
  merge_by cmp (x :: l) (y :: r)
  = if cmp y x <? 0 then y :: merge_by cmp (x :: l) r else x :: merge_by cmp l (y :: r).
Proof. reflexivity. Qed.

Lemma merge_by_nil_l (r : list A) : merge_by cmp [] r = r.
Proof. now destruct r. Qed.

Lemma merge_by_nil_r (l : list A) : merge_by cmp l [] = l.
Proof. now destruct l. Qed.

Lemma merge_by_perm (l r : list A) : Permutation (merge_by cmp l r) (l ++ r).
Proof.
  revert r. induction l as [|x l IHl]; intros r.
  - now rewrite merge_by_nil_l.
  - induction r as [|y r IHr].
    + now rewrite merge_by_nil_r, List.app_nil_r.
    + rewrite merge_by_cons. destruct (cmp y x <? 0).
      * now apply (Permutation_cons_app (x :: l)).
      * simpl. apply perm_skip, IHl.
Qed.

(** A pass, and the passes, keep the elements. *)
Lemma merge_pairs_perm (runs : list (list A)) :
  Permutation (List.concat (merge_pairs cmp runs)) (List.concat runs)
  /\ forall a, Permutation (List.concat (merge_pairs cmp (a :: runs))) (List.concat (a :: runs)).
Proof.
  induction runs as [|b r [IH1 IH2]]; [split; reflexivity|].
  split; [apply IH2|]. intros a. simpl.
  rewrite List.app_assoc. apply Permutation_app; [apply merge_by_perm | exact IH1].
Qed.


Lemma merge_passes_perm (fuel : nat) :
  forall runs, Permutation (merge_passes cmp fuel runs) (List.concat runs).
Proof.
  induction fuel as [|n IH]; intros [|a [|b r]]; simpl; try reflexivity;
    try (now rewrite List.app_nil_r).
  rewrite IH. simpl. rewrite List.app_assoc.
  apply Permutation_app; [apply merge_by_perm | apply merge_pairs_perm].
Qed.

Lemma sort_by_perm (l : list A) : Permutation (sort_by cmp l) l.
Proof. unfold sort_by. now rewrite merge_passes_perm, concat_singletons. Qed.

(** An element that nothing is put before, at the head of the list,
    stays at the head. *)
Lemma merge_by_head (u : A) (l r : list A) :
  (forall y, 0 <= cmp y u) -> exists t, merge_by cmp (u :: l) r = u :: t.
Proof.
  intros Hu. destruct r as [|y r]; [now exists l|].
  rewrite merge_by_cons. destruct (Z.ltb_spec (cmp y u) 0) as [Hlt|_]; [|eauto].
  specialize (Hu y). lia.
Qed.

Lemma merge_passes_head (u : A) (fuel : nat) :
  (forall y, 0 <= cmp y u) ->
  forall l runs, exists t, merge_passes cmp fuel ((u :: l) :: runs) = u :: t.
Proof.
  intros Hu. induction fuel as [|n IH]; intros l [|b r];
    [now exists l | now eexists | now exists l |].
  change (merge_passes cmp (S n) ((u :: l) :: b :: r))
    with (merge_passes cmp n (merge_by cmp (u :: l) b :: merge_pairs cmp r)).
  destruct (merge_by_head u l b Hu) as (t & ->). apply IH.
Qed.

Lemma sort_by_head (u : A) (l : list A) :
  (forall y, 0 <= cmp y u) -> exists t, sort_by cmp (u :: l) = u :: t.
Proof. intros Hu. unfold sort_by. simpl List.map. now apply merge_passes_head. Qed.

(** On a domain where the comparator is total and transitive the result
    is sorted. *)
Variable D : A -> Prop.
Hypothesis cmp_total : forall x y, D x -> D y -> 0 <= cmp y x -> cmp x y <= 0.
Hypothesis cmp_trans : forall x y z, D x -> D y -> D z -> cmp x y <= 0 -> cmp y z <= 0 -> cmp x z <= 0.





End SortFacts.



(** ** Retention: lists and strings *)

Lemma filter_comp {A : Type} (f g : A -> bool) (l : list A) :
  List.filter f (List.filter g l) = List.filter (fun x => g x && f x) l.
Proof.
  induction l as [|x l IH]; simpl; [reflexivity|].
  destruct (g x); simpl; [destruct (f x)|]; now rewrite IH.
Qed.


Lemma filter_all {A : Type} (f : A -> bool) (l : list A) :
  (forall x, In x l -> f x = true) -> List.filter f l = l.
Proof.
  induction l as [|x l IH]; intros H; simpl; [reflexivity|].
  rewrite (H x) by (simpl; auto). rewrite IH; [reflexivity | intros; apply H; simpl; auto].
Qed.


Lemma inb_In (x : string) (l : list string) : inb x l = true <-> In x l.
Proof.
  unfold inb. rewrite List.existsb_exists. split.
  - intros (y & Hy & Heq). apply String.eqb_eq in Heq. now subst.
  - intros H. exists x. split; [exact H | apply String.eqb_refl].
Qed.



Lemma append_cons (c : ascii) (a b : string) : String c a +:+ b = String c (a +:+ b).
Proof. reflexivity. Qed.

Lemma append_nil (b : string) : EmptyString +:+ b = b.
Proof. reflexivity. Qed.


Lemma string_append_assoc (a b c : string) : (a +:+ b) +:+ c = a +:+ (b +:+ c).
Proof.
  induction a as [|x a IH]; [reflexivity|].
  rewrite !append_cons. now rewrite IH.
Qed.



Lemma has_slash_append (a b : string) : has_slash (a +:+ b) = has_slash a || has_slash b.
Proof.
  induction a as [|c a IH]; [reflexivity|].
  rewrite append_cons. simpl. now rewrite IH, orb_assoc.
Qed.

Lemma lastSegment_append (a s : string) :
  has_slash s = false -> lastSegment (a +:+ s) = lastSegment a +:+ s.
Proof.
  intros Hs. induction a as [|c a IH].
  - rewrite !append_nil. destruct s as [|d s]; [reflexivity|].
    unfold lastSegment; fold lastSegment. now rewrite Hs.
  - rewrite append_cons.
    unfold lastSegment; fold lastSegment.
    change (has_slash (String c (a +:+ s))) with ((c =? "/")%char || has_slash (a +:+ s)).
    change (has_slash (String c a)) with ((c =? "/")%char || has_slash a).
    rewrite has_slash_append, Hs, orb_false_r.
    destruct ((c =? "/")%char || has_slash a); [exact IH | reflexivity].
Qed.




(** ** Retention: what the deletions leave *)

Lemma remove_pair_kept (f : string) (deleted l : list string) :
  List.filter (kept_after deleted) (remove (f +:+ ".sha256") (remove f l))
  = List.filter (kept_after (f :: deleted)) l.
Proof.
  unfold remove. rewrite !filter_comp. apply List.filter_ext. intros x.
  unfold kept_after, inb, sidecar. simpl.
  destruct (x =? f)%string, (x =? f +:+ ".sha256")%string,
    (List.existsb (String.eqb x) deleted),
    (List.existsb (String.eqb x) (List.map (fun name => name +:+ ".sha256") deleted)); reflexivity.
Qed.

Lemma unlink_fold (destination : string) (deleted : list string) :
  forall st : Store,
    let st' := List.fold_left
                 (fun st file => unlink destination (file +:+ ".sha256") (unlink destination file st))
                 deleted st in
    local st' !! destination = List.filter (kept_after deleted) <$> local st !! destination
    /\ s3 st' = s3 st.
Proof.
  induction deleted as [|f deleted IH]; intros st; simpl.
  - split; [|reflexivity]. destruct (local st !! destination) as [l|]; [|reflexivity].
    simpl. f_equal. symmetry. now apply filter_all.
  - destruct (IH (unlink destination (f +:+ ".sha256") (unlink destination f st))) as [Hl Hs].
    split; [|exact Hs]. rewrite Hl. simpl. rewrite !lookup_alter_eq.
    destruct (local st !! destination) as [l|]; [|reflexivity].
    simpl. f_equal. apply remove_pair_kept.
Qed.

Lemma s3_delete_fold (bucket : string) (deleted : list string) :
  forall st : Store,
    let st' := List.fold_left
                 (fun st fileKey => s3_delete bucket (fileKey +:+ ".sha256") (s3_delete bucket fileKey st))
                 deleted st in
    s3 st' !! bucket = List.filter (kept_after deleted) <$> s3 st !! bucket
    /\ local st' = local st.
Proof.
  induction deleted as [|f deleted IH]; intros st; simpl.
  - split; [|reflexivity]. destruct (s3 st !! bucket) as [l|]; [|reflexivity].
    simpl. f_equal. symmetry. now apply filter_all.
  - destruct (IH (s3_delete bucket (f +:+ ".sha256") (s3_delete bucket f st))) as [Hl Hs].
    split; [|exact Hs]. rewrite Hl. simpl. rewrite !lookup_alter_eq.
    destruct (s3 st !! bucket) as [l|]; [|reflexivity].
    simpl. f_equal. apply remove_pair_kept.
Qed.

(** ** Retention: which archives go *)


Lemma in_skipn {A : Type} (n : nat) (l : list A) (x : A) : In x (List.skipn n l) -> In x l.
Proof. intros H. rewrite <- (List.firstn_skipn n l). apply List.in_or_app. now right. Qed.



(** ** Retention: the run of cleanup *)

(** What cleanup does at a destination, in terms of the archives it
    finds there: it resolves, and the destination holds what it held but
    the archives past the keep count, in the order of the sort, and their
    sidecars. *)
Lemma cleanup_run (destination : string) (N : Z) (fmt : TimestampFormat)
    (alg : CompressionAlgorithm) (st : Store) (items : list string) :
  fmt <> TsNone ->
  contents destination st = Some items ->
  0 <= N ->
  let archives := List.filter (isBackup destination alg) items in
  let cmp := fun a b => compareBackups (fileName destination a) (fileName destination b) in
  let deleted := if Z.of_nat (List.length archives) <=? N then []
                 else slice N (sort_by cmp archives) in
  exists st',
    cleanupOldBackups destination N fmt alg st = (Ok tt, st')
    /\ contents destination st' = Some (List.filter (kept_after deleted) items).
Proof.
  intros Hfmt Hitems HN archives cmp deleted. subst archives cmp deleted.
  assert (Hrun : cleanupOldBackups destination N fmt alg st
                 = if startsWith destination "s3://"
                   then cleanupS3Backups destination N (backupPatternOf alg) st
                   else cleanupLocalBackups destination N (backupPatternOf alg) st)
    by (destruct fmt; [reflexivity | reflexivity | contradiction]).
  rewrite Hrun. clear Hrun.
  unfold contents, isBackup, listed, fileName in *.
  destruct (startsWith destination "s3://") eqn:Hs3.
  - unfold cleanupS3Backups.
    destruct (parseS3Url destination) as [[bucket pfx]| |]; [|discriminate..].
    rewrite Hitems. rewrite <- (filter_comp _ (fun key => startsWith key (listPrefixOf pfx)) items).
    destruct (List.filter (fun key => startsWith key (listPrefixOf pfx)) items) as [|c l] eqn:Hc.
    + eexists. split; [reflexivity|]. simpl.
      destruct (Z.leb_spec (Z.of_nat 0) N) as [_|Hneg]; [|simpl in Hneg; lia].
      rewrite Hitems. f_equal. symmetry. now apply filter_all.
    + set (backupFiles := List.filter _ (c :: l)).
      destruct (Z.of_nat (List.length backupFiles) <=? N).
      * eexists. split; [reflexivity|]. simpl. rewrite Hitems. f_equal. symmetry.
        now apply filter_all.
      * eexists. split; [reflexivity|].
        match goal with |- context [List.fold_left ?f ?d ?s] =>
          destruct (s3_delete_fold bucket d s) as [Hl _] end.
        simpl in Hl. simpl. rewrite Hl. simpl. rewrite Hitems. reflexivity.
  - unfold cleanupLocalBackups. rewrite Hitems. simpl andb.
    set (backupFiles := List.filter _ items).
    destruct (Z.of_nat (List.length backupFiles) <=? N).
    + eexists. split; [reflexivity|]. simpl. rewrite Hitems. f_equal. symmetry.
      now apply filter_all.
    + eexists. split; [reflexivity|].
      match goal with |- context [List.fold_left ?f ?d ?s] =>
        destruct (unlink_fold destination d s) as [Hl _] end.
      simpl in Hl. simpl. rewrite Hl. simpl. rewrite Hitems. reflexivity.
Qed.



(** C7 (as the code has it): a name from which no timestamp can be read
    compares as equal rank with every name, in both cleanups, and the
    sort goes through (it returns a permutation); such a name listed
    first is first in the sorted list. *)
Theorem unparseable_compares_equal (u : string) :
  extractTimestamp u = None ->
  (forall x, compareBackups u x = 0 /\ compareBackups x u = 0)
  /\ (forall k x, lastSegment k = u -> compareKeys k x = 0 /\ compareKeys x k = 0)
  /\ (forall l, Permutation (sort_by compareBackups (u :: l)) (u :: l))
  /\ (forall l, exists rest, sort_by compareBackups (u :: l) = u :: rest).
Proof.
  intros Hu.
  assert (Hcmp : forall x, compareBackups u x = 0 /\ compareBackups x u = 0).
  { intros x. unfold compareBackups. rewrite Hu. split; [reflexivity|].
    now destruct (extractTimestamp x). }
  split; [exact Hcmp|]. split; [|split].
  - intros k x <-. unfold compareKeys. apply Hcmp.
  - intros l. apply sort_by_perm.
  - intros l. apply sort_by_head. intros y. rewrite (proj2 (Hcmp y)). lia.
Qed.

(** The name [backup_.tar.zstd.crypt] holds no timestamp. *)
Lemma unparseable_compares_equal_witness :
  (forall x, compareBackups Dirs.unparseable x = 0 /\ compareBackups x Dirs.unparseable = 0)
  /\ (forall k x, lastSegment k = Dirs.unparseable -> compareKeys k x = 0 /\ compareKeys x k = 0)
  /\ (forall l, Permutation (sort_by compareBackups (Dirs.unparseable :: l)) (Dirs.unparseable :: l))
  /\ (forall l, exists rest, sort_by compareBackups (Dirs.unparseable :: l)
                             = Dirs.unparseable :: rest).
Proof. apply (unparseable_compares_equal Dirs.unparseable). reflexivity. Defined.

(** C7, refuted as stated: a name that matches the pattern and holds no
    timestamp, listed before a real archive, is ranked first; with a keep
    count of one it is the one kept and the archive is deleted. *)
Lemma unparseable_name_ranked_newest :
  matchesPattern (backupPatternOf Zstd) Dirs.unparseable = true
  /\ extractTimestamp Dirs.unparseable = None
  /\ extractTimestamp Dirs.newest = Some "2024-03-01T00-00-00"
  /\ sort_by compareBackups [Dirs.unparseable; Dirs.newest] = [Dirs.unparseable; Dirs.newest]
  /\ local (snd (cleanupOldBackups "dst" 1 Iso Zstd (Dirs.store_of [Dirs.unparseable; Dirs.newest])))
     !! "dst" = Some [Dirs.unparseable].
Proof. repeat split; vm_compute; reflexivity. Qed.

(** C10, the code at the failing input: a file the glob
    [backup_*.tar.zstd.crypt] does not match passes the filter cleanup
    builds from it, and is deleted. *)
Theorem cleanup_deletes_unrelated_file :
  spec_glob_match (backupPatternOf Zstd) Dirs.unrelated = false
  /\ spec_glob_match (backupPatternOf Zstd) Dirs.newest = true
  /\ matchesPattern (backupPatternOf Zstd) Dirs.unrelated = true
  /\ cleanupOldBackups "dst" 1 Iso Zstd (Dirs.store_of [Dirs.newest; Dirs.unrelated])
     = (Ok tt,
        {| local := <["dst" := [Dirs.newest]]> ∅;
           s3 := ∅;
           trace := [OpReaddir "dst"; OpUnlink "dst" Dirs.unrelated;
                     OpUnlink "dst" (sidecar Dirs.unrelated)] |}).
Proof. repeat split; vm_compute; reflexivity. Qed.

(** Cleanup on the examples: a directory, and a prefix of a bucket. *)
Example cleanup_directory :
  local (snd (cleanupOldBackups "dst" 1 Iso Zstd Dirs.three)) !! "dst"
  = Some [Dirs.newest; sidecar Dirs.newest; "notes.txt"].
Proof. vm_compute. reflexivity. Qed.

Example cleanup_bucket :
  s3 (snd (cleanupOldBackups "s3://bucket/daily" 1 Unix Zstd Dirs.bucket)) !! "bucket"
  = Some ["daily/" +:+ Dirs.newest; "other/" +:+ Dirs.middle].
Proof. vm_compute. reflexivity. Qed.

(** C5, the code at the failing input: a directory that holds two
    archives and a file the glob does not match, cleaned up with a keep
    count of two.  The two archives are within the count, yet the older
    one and its sidecar are unlinked: the file passes the filter, which
    makes three. *)
Theorem cleanup_deletes_archive_within_keep_count :
  List.filter (spec_glob_match (backupPatternOf Zstd)) [Dirs.unrelated; Dirs.oldest; Dirs.newest]
  = [Dirs.oldest; Dirs.newest]
  /\ List.filter (matchesPattern (backupPatternOf Zstd)) [Dirs.unrelated; Dirs.oldest; Dirs.newest]
     = [Dirs.unrelated; Dirs.oldest; Dirs.newest]
  /\ cleanupOldBackups "dst" 2 Iso Zstd Dirs.stray
     = (Ok tt,
        {| local := <["dst" := [Dirs.unrelated; Dirs.newest]]> ∅;
           s3 := ∅;
           trace := [OpReaddir "dst"; OpUnlink "dst" Dirs.oldest;
                     OpUnlink "dst" (sidecar Dirs.oldest)] |}).
Proof. repeat split; vm_compute; reflexivity. Qed.

(** * Further properties of the code *)

(** ** The cipher streams *)

(** X1: Decrypting what was encrypted gives the input back, however either
    stream was cut into chunks. *)
Theorem cipher_round_trip_any_chunking (c : Cipher) (chunks chunks' : list bytes) :
  List.concat chunks' = List.concat (transform_chunks c chunks) ->
  List.concat (transform_chunks c chunks') = List.concat chunks.
Proof.
  intros H. rewrite transform_chunks_concat, H, transform_chunks_concat.
  apply xor_from_involutive.
Qed.

Lemma cipher_round_trip_any_chunking_witness :
  List.concat (transform_chunks {| c_stream := Run.tape; c_pos := 3 |} [[32]; [46; 52]; []; [70]])
  = List.concat [[1; 2; 3]; [4]].
Proof.
  apply (cipher_round_trip_any_chunking {| c_stream := Run.tape; c_pos := 3 |}
           [[1; 2; 3]; [4]] [[32]; [46; 52]; []; [70]]).
  vm_compute. reflexivity.
Defined.

(** ** Text, digests and sidecars *)

Lemma printable_plain (u : Z) :
  printable u = true -> utf8_lead_of u = Single u /\ utf16_of u = [u] /\ is_space u = false.
Proof.
  unfold printable, utf8_lead_of, utf16_of, is_space. intros H.
  apply andb_true_iff in H as [H1 H2]. apply Z.leb_le in H1, H2.
  repeat match goal with
         | |- context [?a <=? ?b] => destruct (Z.leb_spec a b); try lia
         | |- context [?a <? ?b] => destruct (Z.ltb_spec a b); try lia
         | |- context [?a =? ?b] => destruct (Z.eqb_spec a b); try lia
         end.
  auto.
Qed.

Lemma utf8_decode_printable (l t : list Z) :
  List.forallb printable l = true ->
  utf8_decode None (l ++ t) = l ++ utf8_decode None t.
Proof.
  induction l as [|u l IH]; intros H; [reflexivity|].
  simpl in H. apply andb_true_iff in H as [Hu Hl].
  destruct (printable_plain u Hu) as (Hlead & _).
  change (utf8_decode None ((u :: l) ++ t))
    with (match utf8_lead_of u with
          | Single c => c :: utf8_decode None (l ++ t)
          | Lead n c lo hi => utf8_decode (Some (n, c, lo, hi)) (l ++ t)
          | Invalid => 0xFFFD :: utf8_decode None (l ++ t)
          end).
  rewrite Hlead, (IH Hl). reflexivity.
Qed.

Lemma utf16_printable (l t : list Z) :
  List.forallb printable l = true ->
  List.flat_map utf16_of (l ++ t) = l ++ List.flat_map utf16_of t.
Proof.
  induction l as [|u l IH]; intros H; [reflexivity|].
  simpl in H. apply andb_true_iff in H as [Hu Hl].
  destruct (printable_plain u Hu) as (_ & H16 & _).
  simpl. rewrite H16, (IH Hl). reflexivity.
Qed.

Lemma drop_bom_printable (l t : list Z) :
  List.forallb printable l = true -> l <> [] -> drop_bom (l ++ t) = l ++ t.
Proof.
  intros H Hne. destruct l as [|u l]; [contradiction|].
  simpl in H. apply andb_true_iff in H as [Hu _].
  unfold printable in Hu. apply andb_true_iff in Hu as [_ Hu]. apply Z.leb_le in Hu.
  simpl. destruct (l ++ t) as [|b1 [|b2 r]]; try reflexivity.
  destruct (Z.eqb_spec u 239); [lia | reflexivity].
Qed.

Lemma trimEnd_newline (l : list Z) :
  List.forallb printable l = true -> trimEnd (l ++ [10]) = l.
Proof.
  induction l as [|u l IH]; intros H; [reflexivity|].
  simpl in H. apply andb_true_iff in H as [Hu Hl].
  destruct (printable_plain u Hu) as (_ & _ & Hs).
  simpl. rewrite (IH Hl). destruct l; [now rewrite Hs | reflexivity].
Qed.

(** A line of printable ASCII, read from a file and trimmed. *)
Lemma trim_text_line (l : list Z) :
  List.forallb printable l = true -> trim (file_text (l ++ [10])) = l.
Proof.
  intros H. unfold file_text, trim.
  destruct l as [|u l].
  - reflexivity.
  - rewrite drop_bom_printable by (exact H || discriminate).
    rewrite (utf8_decode_printable _ _ H). simpl utf8_decode.
    rewrite (utf16_printable _ _ H). simpl List.flat_map.
    pose proof H as H'. simpl in H'. apply andb_true_iff in H' as [Hu _].
    destruct (printable_plain u Hu) as (_ & _ & Hs).
    simpl trimStart. rewrite Hs.
    change (u :: l ++ [10]) with ((u :: l) ++ [10]). now apply trimEnd_newline.
Qed.

Lemma code_units_append (a b : string) : code_units (a +:+ b) = code_units a ++ code_units b.
Proof.
  unfold code_units. induction a as [|c a IH]; [reflexivity|].
  rewrite append_cons. simpl. now rewrite IH.
Qed.

Lemma hex_digit_printable (n : Z) : 0 <= n < 16 -> printable (byte_of_ascii (hex_digit n)) = true.
Proof.
  intros H. rewrite <- (Z2Nat.id n) by lia.
  assert (Hk : (Z.to_nat n < 16)%nat) by lia.
  revert Hk. generalize (Z.to_nat n). intros k Hk.
  do 16 (destruct k as [|k]; [reflexivity|]). lia.
Qed.

Lemma hex_printable (b : bytes) : List.forallb printable (code_units (hex_of_bytes b)) = true.
Proof.
  induction b as [|x b IH]; [reflexivity|].
  change (code_units (hex_of_bytes (x :: b)))
    with (byte_of_ascii (hex_digit (x / 16 mod 16))
          :: byte_of_ascii (hex_digit (x mod 16)) :: code_units (hex_of_bytes b)).
  simpl List.forallb.
  rewrite !hex_digit_printable by (apply Z.mod_pos_bound; lia). exact IH.
Qed.

(** The text of a sidecar, read back and trimmed, is the digest written. *)
Lemma trim_sidecar_text (b : bytes) :
  trim (file_text (bytes_of_string (hex_of_bytes b +:+ String "010" "")))
  = code_units (hex_of_bytes b).
Proof.
  change (bytes_of_string (hex_of_bytes b +:+ String "010" ""))
    with (code_units (hex_of_bytes b +:+ String "010" "")).
  rewrite code_units_append. apply trim_text_line, hex_printable.
Qed.

Lemma hex_of_bytes_length (b : bytes) :
  String.length (hex_of_bytes b) = (2 * List.length b)%nat.
Proof. induction b as [|x b IH]; simpl; [reflexivity | rewrite IH; lia]. Qed.

Lemma compress_block_length (h block : list Z) :
  List.length h = 8%nat -> List.length (SHA256.compress_block h block) = 8%nat.
Proof.
  intros H. unfold SHA256.compress_block.
  rewrite List.length_map, List.length_combine, H. reflexivity.
Qed.

Lemma blocks_length (fuel : nat) :
  forall w h, List.length h = 8%nat -> List.length (SHA256.blocks fuel w h) = 8%nat.
Proof.
  induction fuel as [|fuel IH]; intros w h H; simpl; [exact H|].
  destruct w; [exact H|]. apply IH. now apply compress_block_length.
Qed.

Lemma sha256_length (msg : bytes) : List.length (SHA256.sha256 msg) = 32%nat.
Proof.
  unfold SHA256.sha256.
  set (st := SHA256.blocks _ _ _).
  assert (Hst : List.length st = 8%nat) by (apply blocks_length; reflexivity).
  destruct st as [|a [|b [|c [|d [|e [|f [|g [|h [|]]]]]]]]]; try discriminate Hst.
  reflexivity.
Qed.

(** ** More on backup *)

Section BackupMore.
Context {P : Platform}.

Lemma writeChecksumFiles_frame (F : Faults) (outs : list string) (c : string) (q : string) :
  forall fs : FS,
    ~ In q (List.map sidecar outs) ->
    snd (writeChecksumFiles F outs c fs) !! q = fs !! q.
Proof.
  induction outs as [|p outs IH]; intros fs Hq; simpl; [reflexivity|].
  simpl in Hq. destruct (sidecarFails F (p +:+ ".sha256")); [reflexivity|].
  rewrite IH by tauto. apply lookup_insert_ne. unfold sidecar in Hq. tauto.
Qed.

Lemma createCipheriv_wrong_size (ealg : EncryptionAlgorithm) (key iv : bytes) :
  List.length key <> keyLength ealg -> createCipheriv ealg key iv = Err EInvalidKeyLength.
Proof.
  intros Hkey. unfold createCipheriv.
  destruct (Nat.eqb_spec (List.length key) (keyLength ealg)); [contradiction | reflexivity].
Qed.

(** X2: A key that has not the size of the cipher: backup rejects and so
    does restore, and neither has written anything. *)
Theorem wrong_key_size_writes_nothing (F : Faults) (rand : nat -> Z)
    (patterns outs : list string) (key : bytes) (ealg : EncryptionAlgorithm)
    (calg : CompressionAlgorithm) (fs : FS) :
  List.length key <> keyLength ealg ->
  backup F rand patterns outs key ealg calg fs = (Err EInvalidKeyLength, fs)
  /\ (forall source outputDir verify content,
        fs !! source = Some content ->
        (IV_SIZE <= List.length (List.hd [] (file_chunks content)))%nat ->
        restore source outputDir key ealg calg verify fs = (Err EInvalidKeyLength, fs)).
Proof.
  intros Hkey.
  assert (Hc : forall iv, createCipheriv ealg key iv = Err EInvalidKeyLength)
    by (intros; now apply createCipheriv_wrong_size).
  split.
  - unfold backup, EncryptionStream. now rewrite Hc.
  - intros source outputDir verify content Hsrc Hfirst. unfold restore. rewrite Hsrc.
    destruct (file_chunks content) as [|firstChunk reader]; simpl in Hfirst;
      [unfold IV_SIZE in Hfirst; lia|].
    destruct (Nat.ltb_spec (List.length firstChunk) IV_SIZE); [lia|].
    unfold DecryptionStream, createDecipheriv. now rewrite Hc.
Qed.

(** X3: A resolved backup returns a digest of 64 characters; the sidecar of
    every destination, read back as text and trimmed, is that digest; and
    at every destination that received every chunk it is the SHA-256 of
    the archive written there.  The file is that archive, so the digest
    is the SHA-256 of the file, when the destination did not exist or
    was no longer than the archive; a longer file keeps what it held
    past the archive. *)
Theorem sidecar_holds_digest_of_archive (F : Faults) (rand : nat -> Z)
    (patterns outs : list string) (key : bytes) (ealg : EncryptionAlgorithm)
    (calg : CompressionAlgorithm) (fs fs' : FS) (checksum : string) :
  backup F rand patterns outs key ealg calg fs = (Ok checksum, fs') ->
  String.length checksum = 64%nat
  /\ (forall out, In out outs ->
        exists sidecarBytes, fs' !! sidecar out = Some sidecarBytes
                             /\ trim (file_text sidecarBytes) = code_units checksum)
  /\ (forall out, In out outs -> (forall i, writeFails F out i = false) ->
        ~ In out (List.map sidecar outs) ->
        exists archive,
          hex_of_bytes (SHA256.sha256 archive) = checksum
          /\ fs' !! out
             = Some (if is_s3_url out then archive
                     else overwritten archive (default [] (fs !! out)))
          /\ ((forall old, fs !! out = Some old -> (List.length old <= List.length archive)%nat) ->
              fs' !! out = Some archive)).
Proof.
  intros H. apply backup_outputs in H as (entries & _ & _ & Hsum & Harch & Hside).
  split; [|split].
  - rewrite Hsum, hex_of_bytes_length, sha256_length. reflexivity.
  - intros out Hin. eexists. split; [now apply Hside|].
    rewrite Hsum. apply trim_sidecar_text.
  - intros out Hin Hok Hns. eexists. split; [now rewrite Hsum|].
    split; [now apply Harch|].
    intros Hfresh. rewrite (Harch out Hin Hok Hns).
    destruct (is_s3_url out); [reflexivity|]. f_equal. apply overwritten_fits.
    destruct (fs !! out) as [old|]; simpl; [now apply Hfresh | lia].
Qed.

(** X4: Backup touches nothing but its destinations and their sidecars,
    whatever fails. *)
Theorem backup_frame (F : Faults) (rand : nat -> Z) (patterns outs : list string)
    (key : bytes) (ealg : EncryptionAlgorithm) (calg : CompressionAlgorithm) (fs : FS)
    (q : string) :
  ~ In q outs ->
  ~ In q (List.map sidecar outs) ->
  snd (backup F rand patterns outs key ealg calg fs) !! q = fs !! q.
Proof.
  intros Hq Hs. unfold backup.
  destruct (EncryptionStream ealg key rand) as [[iv cipher]| |]; [|reflexivity..].
  pose proof (prepareOutputs_frame outs fs q Hq) as Hprep.
  pose proof (prepareOutputs_paths outs fs) as Hpaths.
  destruct (prepareOutputs outs fs) as [sinks fs0]. simpl in Hprep, Hpaths.
  assert (Hw : forall stream, snd (write_chunks F 0 stream sinks fs0) !! q = fs !! q).
  { intros stream. rewrite write_chunks_frame by now rewrite Hpaths. exact Hprep. }
  destruct (createFileStream fs patterns) as [tar| |]; [|apply Hw | exact Hprep].
  unfold writeToMultipleSinks.
  set (stream := prependIv iv _).
  specialize (Hw stream).
  destruct (write_chunks F 0 stream sinks fs0) as [ws fs1]. simpl in Hw.
  destruct (end_all F ws) as [[]| |]; [|exact Hw..].
  pose proof (writeChecksumFiles_frame F outs (createChecksumStream stream) q fs1 Hs) as Hc.
  destruct (writeChecksumFiles F outs (createChecksumStream stream) fs1) as [[[]| |] fs2];
    simpl in *; congruence.
Qed.


Lemma end_all_first (F : Faults) (l1 l2 : list Sink) (w : Sink) :
  (forall x, In x l1 -> endFails F (sink_path x) = false) ->
  endFails F (sink_path w) = true ->
  end_all F (l1 ++ w :: l2) = Err (ESinkEnd (sink_path w)).
Proof.
  intros H1 Hw. induction l1 as [|x l1 IH]; simpl.
  - now rewrite Hw.
  - rewrite (H1 x) by (simpl; auto). apply IH. intros; apply H1; simpl; auto.
Qed.

(** X6: When finalizing a destination rejects, the call rejects with the
    error of the first such destination, and no sidecar is written:
    only the destinations themselves have been touched. *)
Theorem end_failure_aborts_backup (F : Faults) (rand : nat -> Z)
    (patterns l1 l2 : list string) (p : string) (key : bytes) (ealg : EncryptionAlgorithm)
    (calg : CompressionAlgorithm) (fs : FS) (entries : list (string * bytes)) :
  List.length key = keyLength ealg ->
  read_entries fs (readFiles fs patterns) = Ok entries ->
  (forall q, In q l1 -> endFails F q = false) ->
  endFails F p = true ->
  fst (backup F rand patterns (l1 ++ p :: l2) key ealg calg fs) = Err (ESinkEnd p)
  /\ (forall q, ~ In q (l1 ++ p :: l2) ->
        snd (backup F rand patterns (l1 ++ p :: l2) key ealg calg fs) !! q = fs !! q).
Proof.
  intros Hkey He H1 Hp. unfold backup, EncryptionStream, createFileStream, createCipheriv.
  rewrite Hkey, randomBytes_length, He, !Nat.eqb_refl. simpl andb. cbv iota.
  pose proof (prepareOutputs_paths (l1 ++ p :: l2) fs) as Hprep.
  assert (Hframe : forall q, ~ In q (l1 ++ p :: l2) ->
                   snd (prepareOutputs (l1 ++ p :: l2) fs) !! q = fs !! q)
    by (intros; now apply prepareOutputs_frame).
  destruct (prepareOutputs (l1 ++ p :: l2) fs) as [sinks fs0]. simpl in Hprep, Hframe.
  unfold writeToMultipleSinks.
  set (stream := prependIv _ _).
  pose proof (write_chunks_paths F stream 0%nat sinks fs0) as Hpaths.
  rewrite Hprep in Hpaths.
  assert (Hf : forall q, ~ In q (l1 ++ p :: l2) ->
               snd (write_chunks F 0 stream sinks fs0) !! q = fs !! q).
  { intros q Hq. rewrite write_chunks_frame by now rewrite Hprep. now apply Hframe. }
  destruct (write_chunks F 0 stream sinks fs0) as [ws fs1].
  simpl in Hpaths, Hf.
  assert (Hend : end_all F ws = Err (ESinkEnd p)).
  { apply List.map_eq_app in Hpaths as (ws1 & ws2 & -> & Hm1 & Hm2).
    destruct ws2 as [|w ws2]; [discriminate|]. simpl in Hm2. injection Hm2 as Hw _.
    rewrite <- Hw. apply end_all_first; [|now rewrite Hw].
    intros x Hx. apply H1. rewrite <- Hm1. now apply List.in_map. }
  rewrite Hend. split; [reflexivity | exact Hf].
Qed.

(** X7: A key from [generateKey] is one for aes-256-ctr only: backup rejects
    it as of the wrong size exactly for the two other ciphers. *)
Theorem generated_key_fits_aes256_only (F : Faults) (rand tape : nat -> Z)
    (patterns outs : list string) (ealg : EncryptionAlgorithm) (calg : CompressionAlgorithm)
    (fs : FS) :
  fst (backup F rand patterns outs (generateKey tape) ealg calg fs) = Err EInvalidKeyLength
  <-> ealg <> Aes256Ctr.
Proof.
  assert (Hlen : List.length (generateKey tape) = 32%nat) by apply randomBytes_length.
  split.
  - intros H ->. revert H. unfold backup, EncryptionStream, createCipheriv.
    rewrite Hlen, randomBytes_length. simpl andb. cbv iota.
    destruct (prepareOutputs outs fs) as [sinks fs0].
    unfold createFileStream.
    destruct (read_entries fs (readFiles fs patterns)) as [entries|e|] eqn:He.
    + unfold writeToMultipleSinks.
      destruct (write_chunks _ _ _ _ _) as [ws fs1].
      destruct (end_all F ws) as [[]|e|] eqn:Hend.
      * destruct (writeChecksumFiles _ _ _ _) as [[[]|e|] fs2] eqn:Hs; simpl; try discriminate.
        intros [= ->]. revert Hs. clear. generalize fs1.
        generalize (createChecksumStream
                       (prependIv (randomBytes rand 16)
                          (transform_chunks
                             {| c_stream := keystream Aes256Ctr (generateKey tape) (randomBytes rand 16);
                                c_pos := 0 |}
                             (pipe_chunks (compress calg (tar_pack entries)))))).
        induction outs as [|o outs IH]; intros c fs0; simpl; [discriminate|].
        destruct (sidecarFails F (o +:+ ".sha256")); [discriminate | apply IH].
      * simpl. intros [= ->]. revert Hend. clear.
        induction ws as [|w ws IH]; simpl; [discriminate|].
        destruct (endFails F (sink_path w)); [discriminate | exact IH].
      * simpl. discriminate.
    + simpl. intros [= ->]. revert He. clear.
      induction (readFiles fs patterns) as [|p l IH]; intros He; simpl in He; [discriminate|].
      destruct (fs !! p); [|discriminate].
      destruct (read_entries fs l); [discriminate| |discriminate]. injection He as ->. now apply IH.
    + simpl. discriminate.
  - intros Hne. unfold backup, EncryptionStream.
    rewrite createCipheriv_wrong_size; [reflexivity|].
    rewrite Hlen. destruct ealg; simpl; [lia | lia | contradiction].
Qed.

End BackupMore.

(** ** More on restore *)

Section RestoreMore.
Context {P : Platform}.

(** X8: The stream handed to the decipher holds no empty chunk, and holds
    what is left of the first chunk followed by the rest of the source. *)
Theorem encrypted_stream_chunks (reader : list bytes) (firstChunk : bytes) :
  List.Forall (fun chunk => chunk <> []) (createEncryptedStream reader firstChunk)
  /\ List.concat (createEncryptedStream reader firstChunk) = firstChunk ++ List.concat reader.
Proof.
  split; [|apply createEncryptedStream_concat].
  unfold createEncryptedStream. apply List.Forall_app. split.
  - destruct firstChunk; simpl; constructor; [discriminate | constructor].
  - apply List.Forall_forall. intros chunk [_ H]%List.filter_In.
    destruct chunk; [discriminate H | discriminate].
Qed.

(** X9: The size check looks at the first chunk of the stream, not at the
    file: a source whose stream starts with a chunk of fewer than 16
    bytes is rejected as too small, however long it is, and nothing is
    written. *)
Theorem short_first_chunk_is_too_small (source outputDir : string) (key : bytes)
    (ealg : EncryptionAlgorithm) (calg : CompressionAlgorithm) (verify : bool)
    (fs : FS) (content : bytes) (firstChunk : bytes) (reader : list bytes) :
  fs !! source = Some content ->
  file_chunks content = firstChunk :: reader ->
  (List.length firstChunk < IV_SIZE)%nat ->
  restore source outputDir key ealg calg verify fs = (Err ETooSmall, fs).
Proof.
  intros Hsrc Hchunks Hlen. unfold restore. rewrite Hsrc, Hchunks.
  destruct (Nat.ltb_spec (List.length firstChunk) IV_SIZE); [reflexivity | lia].
Qed.

(** X10: Verification never changes what restore leaves on disk: with it on
    or off the same files are there, also when it rejects; and a restore
    that fails with verification off fails the same way with it on. *)
Theorem verification_leaves_disk_alone (source outputDir : string) (key : bytes)
    (ealg : EncryptionAlgorithm) (calg : CompressionAlgorithm) (fs : FS) :
  snd (restore source outputDir key ealg calg true fs)
  = snd (restore source outputDir key ealg calg false fs)
  /\ (forall e, fst (restore source outputDir key ealg calg false fs) = Err e ->
                fst (restore source outputDir key ealg calg true fs) = Err e).
Proof.
  rewrite restore_verify.
  destruct (restore source outputDir key ealg calg false fs) as [[[]|e|] fs1]; simpl.
  - split; [|discriminate]. now destruct (computeFileHash source key fs1).
  - split; [reflexivity | auto].
  - split; [reflexivity | discriminate].
Qed.

Lemma write_entries_frame (outputDir q : string) (entries : list (string * bytes)) :
  forall fs : FS,
    (forall name, join outputDir name <> q) ->
    List.fold_left (write_entry outputDir) entries fs !! q = fs !! q.
Proof.
  induction entries as [|e entries IH]; intros fs Hq; simpl; [reflexivity|].
  rewrite IH by assumption. unfold write_entry. now apply lookup_insert_ne.
Qed.

(** X11: Restore writes only at paths [join(outputDir, name)] and removes
    nothing: every other path holds what it held, and every file that
    existed still exists. *)
Theorem restore_frame (source outputDir : string) (key : bytes)
    (ealg : EncryptionAlgorithm) (calg : CompressionAlgorithm) (verify : bool) (fs : FS)
    (q : string) :
  ((forall name, join outputDir name <> q) ->
   snd (restore source outputDir key ealg calg verify fs) !! q = fs !! q)
  /\ (is_Some (fs !! q) ->
      is_Some (snd (restore source outputDir key ealg calg verify fs) !! q)).
Proof.
  assert (Hsnd : snd (restore source outputDir key ealg calg verify fs) = fs
                 \/ exists entries,
                      snd (restore source outputDir key ealg calg verify fs)
                      = List.fold_left (write_entry outputDir) entries fs).
  { unfold restore.
    destruct (fs !! source) as [content|]; [|now left].
    destruct (file_chunks content) as [|firstChunk reader]; [now left|].
    destruct (List.length firstChunk <? IV_SIZE)%nat; [now left|].
    destruct (DecryptionStream _ _ _ _) as [decryptedStream| |]; [|now left..].
    unfold extractFiles. destruct (tar_extract _) as [entries finished].
    right. exists entries.
    destruct (negb _); [reflexivity|]. destruct finished; [|reflexivity].
    destruct verify; [|reflexivity].
    now destruct (computeFileHash _ _ _). }
  destruct Hsnd as [->|(entries & ->)].
  - split; [reflexivity | auto].
  - split; [now apply write_entries_frame | apply write_entries_keeps].
Qed.

End RestoreMore.

(** ** The added properties on concrete inputs *)

Lemma wrong_key_size_writes_nothing_witness :
  backup (P := Toy.platform) noFaults Run.tape Run.patterns Run.outputPaths [1; 2; 3] Aes256Ctr Zstd
    Run.files = (Err EInvalidKeyLength, Run.files)
  /\ restore (P := Toy.platform) "out/b1" "restored" [1; 2; 3] Aes256Ctr Zstd true Run.after_backup
     = (Err EInvalidKeyLength, Run.after_backup).
Proof.
  destruct (wrong_key_size_writes_nothing (P := Toy.platform) noFaults Run.tape Run.patterns
              Run.outputPaths [1; 2; 3] Aes256Ctr Zstd Run.files) as [Hb _]; [simpl; lia|].
  destruct (wrong_key_size_writes_nothing (P := Toy.platform) noFaults Run.tape Run.patterns
              Run.outputPaths [1; 2; 3] Aes256Ctr Zstd Run.after_backup) as [_ Hr]; [simpl; lia|].
  split; [exact Hb|].
  eapply Hr; [vm_compute; reflexivity | vm_compute; lia].
Defined.

Lemma sidecar_holds_digest_of_archive_witness :
  exists sidecarBytes archive,
    Run.after_backup !! sidecar "out/b2" = Some sidecarBytes
    /\ Run.after_backup !! "out/b2" = Some archive
    /\ trim (file_text sidecarBytes) = code_units (hex_of_bytes (SHA256.sha256 archive)).
Proof.
  destruct (sidecar_holds_digest_of_archive (P := Toy.platform) noFaults Run.tape Run.patterns
              Run.outputPaths Run.key Aes256Ctr Zstd Run.files Run.after_backup _ run_backup)
    as (_ & Hside & Harch).
  destruct (Hside "out/b2") as (text & Ht & Htrim); [simpl; auto|].
  destruct (Harch "out/b2") as (archive & Hsum & _ & Ha);
    [simpl; auto | reflexivity | apply run_no_sidecar_clash; simpl; auto|].
  exists text, archive. split; [exact Ht|]. split; [|congruence].
  apply Ha. intros old Hold. vm_compute in Hold. discriminate Hold.
Defined.

Lemma backup_frame_witness :
  snd (Run.backup_with Run.secondRejects) !! "test/a.txt" = Some [98].
Proof.
  unfold Run.backup_with.
  rewrite (backup_frame (P := Toy.platform) Run.secondRejects Run.tape Run.patterns Run.outputPaths
             Run.key Aes256Ctr Zstd Run.files "test/a.txt").
  - reflexivity.
  - intros [H|[H|[]]]; discriminate H.
  - intros [H|[H|[]]]; discriminate H.
Defined.


Lemma end_failure_aborts_backup_witness :
  fst (backup (P := Toy.platform)
         {| writeFails := fun _ _ => false;
            endFails := fun path => (path =? "out/b2")%string;
            sidecarFails := fun _ => false |}
         Run.tape Run.patterns (["out/b1"] ++ "out/b2" :: ["out/b3"]) Run.key Aes256Ctr Zstd
         Run.files) = Err (ESinkEnd "out/b2").
Proof.
  apply (end_failure_aborts_backup (P := Toy.platform) _ Run.tape Run.patterns ["out/b1"] ["out/b3"]
           "out/b2" Run.key Aes256Ctr Zstd Run.files _ eq_refl run_entries).
  - intros q [<-|[]]. reflexivity.
  - reflexivity.
Defined.

Lemma short_first_chunk_is_too_small_witness :
  (16 <= List.length (List.repeat 7 40))%nat
  /\ restore (P := toy_small_chunks) "b" "restored" Run.key Aes256Ctr Zstd false
       (<["b" := List.repeat 7 40]> ∅)
     = (Err ETooSmall, <["b" := List.repeat 7 40]> ∅).
Proof.
  split; [simpl; lia|].
  apply (short_first_chunk_is_too_small (P := toy_small_chunks) "b" "restored" Run.key Aes256Ctr
           Zstd false _ (List.repeat 7 40) (List.repeat 7 8) [List.repeat 7 32]).
  - reflexivity.
  - reflexivity.
  - unfold IV_SIZE. simpl. lia.
Defined.

Lemma restore_frame_witness :
  snd (Run.restore_from true Run.after_backup) !! "test/a.txt" = Some [98]
  /\ is_Some (snd (Run.restore_from true Run.after_backup) !! "out/b1").
Proof.
  destruct (restore_frame (P := Toy.platform) "out/b1" "restored" Run.key Aes256Ctr Zstd true
              Run.after_backup "test/a.txt") as [H1 _].
  destruct (restore_frame (P := Toy.platform) "out/b1" "restored" Run.key Aes256Ctr Zstd true
              Run.after_backup "out/b1") as [_ H2].
  split.
  - unfold Run.restore_from. rewrite H1; [vm_compute; reflexivity|].
    intros name H. unfold join in H. simpl in H. unfold Toy.path_join in H.
    discriminate H.
  - apply H2. vm_compute. eauto.
Defined.
(** ** More on cleanup: URLs and names *)

Lemma strip_prefix_append (p r : string) : strip_prefix p (p +:+ r) = Some r.
Proof.
  induction p as [|c p IH]; [now destruct r|].
  rewrite append_cons. simpl. now rewrite Ascii.eqb_refl.
Qed.

Lemma strip_prefix_sound (p s r : string) : strip_prefix p s = Some r -> s = p +:+ r.
Proof.
  revert s. induction p as [|c p IH]; intros s H.
  - destruct s; simpl in H; injection H as <-; reflexivity.
  - destruct s as [|d s]; simpl in H; [discriminate|].
    destruct (Ascii.eqb_spec c d) as [<-|]; [|discriminate].
    rewrite append_cons. f_equal. now apply IH.
Qed.

Lemma startsWith_sound (s p : string) : startsWith s p = true -> exists r, s = p +:+ r.
Proof.
  revert s. induction p as [|c p IH]; intros s H.
  - exists s. reflexivity.
  - destruct s as [|d s]; simpl in H; [discriminate|].
    apply andb_true_iff in H as [Hc Hs]. apply Ascii.eqb_eq in Hc. subst d.
    destruct (IH s Hs) as [r ->]. exists r. reflexivity.
Qed.

Lemma until_slash_split (s : string) : s = take_until_slash s +:+ drop_until_slash s.
Proof.
  induction s as [|c s IH]; [reflexivity|]. simpl.
  destruct (c =? "/")%char; [reflexivity|]. rewrite append_cons. now f_equal.
Qed.

Lemma take_until_slash_no_slash (s : string) : has_slash (take_until_slash s) = false.
Proof.
  induction s as [|c s IH]; [reflexivity|]. simpl.
  destruct (c =? "/")%char eqn:Hc; [reflexivity|]. simpl. now rewrite Hc.
Qed.

Lemma drop_until_slash_head (s : string) :
  drop_until_slash s = EmptyString \/ exists r, drop_until_slash s = String "/" r.
Proof.
  induction s as [|c s IH]; [now left|]. simpl.
  destruct (Ascii.eqb_spec c "/") as [->|]; [right; eauto | exact IH].
Qed.

Lemma until_slash_append (b t : string) :
  has_slash b = false ->
  take_until_slash (b +:+ t) = b +:+ take_until_slash t
  /\ drop_until_slash (b +:+ t) = drop_until_slash t.
Proof.
  induction b as [|c b IH]; intros H; [now split|].
  simpl in H. apply orb_false_iff in H as [Hc Hb].
  rewrite !append_cons. simpl. rewrite Hc. destruct (IH Hb) as [-> ->]. now split.
Qed.

(** X12: [parseS3Url] accepts exactly [s3://bucket] and [s3://bucket/prefix],
    for a bucket that is not empty and holds no slash and a prefix that
    holds no line terminator, and returns the two parts; [s3://bucket/]
    and a missing bucket are invalid. *)
Theorem parseS3Url_accepts_exactly (url bucket pfx : string) :
  parseS3Url url = Ok (bucket, pfx)
  <-> url = "s3://" +:+ bucket +:+ match pfx with EmptyString => EmptyString | _ => "/" +:+ pfx end
      /\ bucket <> EmptyString /\ has_slash bucket = false /\ has_line_terminator pfx = false.
Proof.
  split.
  - unfold parseS3Url. intros H.
    destruct (strip_prefix "s3://" url) as [rest|] eqn:Hs; [|discriminate].
    apply strip_prefix_sound in Hs. subst url.
    pose proof (until_slash_split rest) as Hsplit.
    pose proof (take_until_slash_no_slash rest) as Hno.
    destruct (take_until_slash rest) as [|c b] eqn:Ht; [discriminate|].
    destruct (drop_until_slash_head rest) as [Hd|(r & Hd)]; rewrite Hd in H, Hsplit.
    + injection H as <- <-. rewrite Hsplit.
      split; [reflexivity|]. split; [discriminate|]. split; [exact Hno | reflexivity].
    + destruct r as [|d r]; [discriminate|].
      destruct (has_line_terminator (String d r)) eqn:Hlt; [discriminate|].
      injection H as <- <-. rewrite Hsplit.
      split; [reflexivity|]. split; [discriminate|]. split; [exact Hno | exact Hlt].
  - intros (-> & Hb & Hslash & Hlt). unfold parseS3Url.
    rewrite strip_prefix_append.
    destruct (until_slash_append bucket
                match pfx with EmptyString => EmptyString | _ => "/" +:+ pfx end Hslash)
      as [-> ->].
    destruct pfx as [|d r].
    + simpl. replace (bucket +:+ "") with bucket
        by (clear; induction bucket as [|c b IH]; [reflexivity | rewrite append_cons; now f_equal]).
      destruct bucket; [contradiction | reflexivity].
    + change ("/" +:+ String d r) with (String "/" (String d r)). simpl take_until_slash.
      simpl drop_until_slash.
      replace (bucket +:+ "") with bucket
        by (clear; induction bucket as [|c b IH]; [reflexivity | rewrite append_cons; now f_equal]).
      destruct bucket; [contradiction|]. now rewrite Hlt.
Qed.

Lemma lazy_until_tar_sound (s g : string) :
  lazy_until_tar s = Some g ->
  has_line_terminator g = false /\ exists rest, s = g +:+ ".tar." +:+ rest.
Proof.
  revert g. induction s as [|c s IH]; intros g H.
  - discriminate H.
  - unfold lazy_until_tar in H; fold lazy_until_tar in H.
    destruct (startsWith (String c s) ".tar.") eqn:Hp.
    + injection H as <-. split; [reflexivity|]. now apply startsWith_sound.
    + destruct (is_line_terminator c) eqn:Hc; [discriminate|].
      destruct (lazy_until_tar s) as [g'|]; [|discriminate].
      injection H as <-. destruct (IH g' eq_refl) as (Hlt & rest & ->).
      split; [simpl; now rewrite Hc | exists rest; reflexivity].
Qed.

(** X13: When [extractTimestamp] finds a timestamp, the name is [backup_],
    the timestamp, [.tar.] and a rest; the timestamp is not empty and
    holds no line terminator. *)
Theorem extractTimestamp_sound (filename ts : string) :
  extractTimestamp filename = Some ts ->
  ts <> EmptyString
  /\ has_line_terminator ts = false
  /\ exists rest, filename = "backup_" +:+ ts +:+ ".tar." +:+ rest.
Proof.
  unfold extractTimestamp. intros H.
  destruct (strip_prefix "backup_" filename) as [[|c r]|] eqn:Hs; try discriminate.
  apply strip_prefix_sound in Hs. subst filename.
  destruct (is_line_terminator c) eqn:Hc; [discriminate|].
  destruct (lazy_until_tar r) as [g|] eqn:Hg; [|discriminate].
  injection H as <-. destruct (lazy_until_tar_sound r g Hg) as (Hlt & rest & ->).
  split; [discriminate|]. split; [simpl; now rewrite Hc|].
  exists rest. reflexivity.
Qed.

Lemma extractTimestamp_sound_witness :
  "2024-03-01T00-00-00" <> EmptyString
  /\ has_line_terminator "2024-03-01T00-00-00" = false
  /\ exists rest, Dirs.newest = "backup_" +:+ "2024-03-01T00-00-00" +:+ ".tar." +:+ rest.
Proof. apply (extractTimestamp_sound Dirs.newest "2024-03-01T00-00-00"). reflexivity. Defined.

(** ** The timestamps of [createTimestamp] *)

Lemma digit_char_code (d : Z) : 0 <= d < 10 -> N_of_ascii (digit_char d) = Z.to_N (48 + d).
Proof. intros H. unfold digit_char. apply N_ascii_embedding. lia. Qed.

Lemma digit_char_timestamp (d : Z) : 0 <= d < 10 -> is_timestamp_char (digit_char d) = true.
Proof.
  intros H. unfold is_timestamp_char. rewrite (digit_char_code d H).
  apply orb_true_iff. left. apply orb_true_iff. left.
  apply andb_true_iff. split; apply N.leb_le; lia.
Qed.

Lemma all_chars_app (f : ascii -> bool) (a b : string) :
  all_chars f (a +:+ b) = all_chars f a && all_chars f b.
Proof.
  induction a as [|c a IH]; [reflexivity|].
  rewrite append_cons. simpl. now rewrite IH, andb_assoc.
Qed.

Lemma digits_of_timestamp_chars (fuel : nat) :
  forall n acc,
    all_chars is_timestamp_char acc = true ->
    all_chars is_timestamp_char (digits_of fuel n acc) = true.
Proof.
  induction fuel as [|fuel IH]; intros n acc H; simpl; [exact H|].
  assert (Hd : all_chars is_timestamp_char (String (digit_char (n mod 10)) acc) = true).
  { simpl. rewrite digit_char_timestamp by (apply Z.mod_pos_bound; lia). exact H. }
  destruct (n <? 10); [exact Hd | now apply IH].
Qed.

Lemma digits_of_not_empty (fuel : nat) :
  forall n acc, acc <> EmptyString -> digits_of fuel n acc <> EmptyString.
Proof.
  induction fuel as [|fuel IH]; intros n acc H; simpl; [exact H|].
  destruct (n <? 10); [discriminate | apply IH; discriminate].
Qed.

Lemma Number_toString_timestamp_chars (n : Z) :
  all_chars is_timestamp_char (Number_toString n) = true /\ Number_toString n <> EmptyString.
Proof.
  unfold Number_toString. destruct (n <? 0).
  - split; [|discriminate].
    change (all_chars is_timestamp_char
              (digits_of (S (Z.to_nat (Z.log2 (- n)))) (- n) EmptyString) = true).
    now apply digits_of_timestamp_chars.
  - split; [now apply digits_of_timestamp_chars|].
    simpl. destruct (n <? 10); [discriminate | apply digits_of_not_empty; discriminate].
Qed.

Lemma take_cycle_chars (f : ascii -> bool) (padString : string) (n : nat) :
  all_chars f padString = true ->
  forall cur, all_chars f cur = true -> all_chars f (take_cycle n padString cur) = true.
Proof.
  intros Hp. induction n as [|n IH]; intros cur Hc; [reflexivity|]. simpl.
  destruct cur as [|c r].
  - destruct padString as [|c r]; [reflexivity|]. simpl in *.
    apply andb_true_iff in Hp as [H1 H2]. rewrite H1. now apply IH.
  - simpl in *. apply andb_true_iff in Hc as [H1 H2]. rewrite H1. now apply IH.
Qed.

Lemma padded_timestamp_chars (n : Z) :
  all_chars is_timestamp_char (padStart 2 "0" (Number_toString n)) = true.
Proof.
  unfold padStart. rewrite all_chars_app.
  rewrite take_cycle_chars by reflexivity.
  apply (proj1 (Number_toString_timestamp_chars n)).
Qed.

Lemma wellFormed_iff (s : string) :
  wellFormedTimestamp s = true <-> s <> EmptyString /\ all_chars is_timestamp_char s = true.
Proof.
  destruct s as [|c r]; simpl.
  - split; [discriminate | intros [[] _]; reflexivity].
  - split; [intros H; split; [discriminate | exact H] | now intros [_ H]].
Qed.

Lemma append_not_empty (a b : string) : a <> EmptyString -> a +:+ b <> EmptyString.
Proof. destruct a; [contradiction | discriminate]. Qed.

(** Every timestamp [createTimestamp] makes, in the two formats that
    make one, is a non-empty string of digits, [-] and [T]. *)
Lemma createTimestamp_wellFormed (fmt : TimestampFormat) (now : Z) (d : DateParts) :
  fmt <> TsNone -> wellFormedTimestamp (createTimestamp fmt now d) = true.
Proof.
  intros Hf. apply wellFormed_iff. destruct fmt; [| |contradiction]; simpl.
  - split.
    + apply append_not_empty, (proj2 (Number_toString_timestamp_chars _)).
    + rewrite !all_chars_app, !padded_timestamp_chars.
      now rewrite (proj1 (Number_toString_timestamp_chars _)).
  - split; apply Number_toString_timestamp_chars.
Qed.

Lemma timestamp_chars_no_line_terminator (s : string) :
  all_chars is_timestamp_char s = true -> has_line_terminator s = false.
Proof.
  induction s as [|c s IH]; [reflexivity|]. simpl. intros H.
  apply andb_true_iff in H as [Hc Hs].
  destruct (timestamp_char_plain c EmptyString Hc) as [-> _]. now apply IH.
Qed.

(** ** Names and the filter of cleanup *)

Lemma re_match_lit (c : ascii) (r : list (atom * bool)) (s : string) :
  re_match ((Lit c, false) :: r) (String c s) = re_match r s.
Proof. simpl. now rewrite Ascii.eqb_refl. Qed.

Lemma re_match_star_cons (a : atom) (r : list (atom * bool)) (c : ascii) (s : string) :
  re_match ((a, true) :: r) (String c s)
  = re_match r (String c s) || (atom_matches a c && re_match ((a, true) :: r) s).
Proof. reflexivity. Qed.

Lemma re_match_star_nil (a : atom) (r : list (atom * bool)) :
  re_match ((a, true) :: r) EmptyString = re_match r EmptyString || false.
Proof. reflexivity. Qed.

Lemma re_match_dotstar_app (r : list (atom * bool)) (ts tail : string) :
  has_line_terminator ts = false ->
  re_match r tail = true ->
  re_match ((Dot, true) :: r) (ts +:+ tail) = true.
Proof.
  intros Hlt Hr. induction ts as [|c ts IH].
  - rewrite append_nil. destruct tail.
    + now rewrite re_match_star_nil, Hr.
    + now rewrite re_match_star_cons, Hr.
  - simpl in Hlt. apply orb_false_iff in Hlt as [Hc Hts].
    rewrite append_cons, re_match_star_cons, (IH Hts). simpl. rewrite Hc.
    apply orb_true_r.
Qed.

(** A name made with a timestamp that holds no line terminator passes
    the filter of cleanup. *)
Lemma archiveName_matches (ts : string) (alg : CompressionAlgorithm) :
  has_line_terminator ts = false ->
  matchesPattern (backupPatternOf alg) (archiveName ts alg) = true.
Proof.
  intros Hlt. unfold archiveName.
  destruct alg;
    match goal with |- matchesPattern ?p _ = true =>
      let src := eval vm_compute in ("^" +:+ replace_star p +:+ "$") in
      change (matchesPattern p) with (RegExp_test src)
    end;
    unfold RegExp_test;
    match goal with |- re_match (compile ?b) _ = true =>
      let items := eval vm_compute in (compile b) in change (compile b) with items
    end;
    rewrite !append_cons, append_nil, !re_match_lit;
    (apply re_match_dotstar_app; [exact Hlt | vm_compute; reflexivity]).
Qed.

(** X14: The archives backup names are the ones cleanup looks for: with a
    timestamp format, the name [createBackupFilename] makes passes the
    filter of cleanup and [extractTimestamp] reads the timestamp back;
    without one, the name does not pass the filter, so cleanup never
    deletes the archive [backup.tar.<alg>.crypt]. *)
Theorem created_names_and_cleanup (fmt : TimestampFormat) (alg : CompressionAlgorithm)
    (now : Z) (d : DateParts) :
  match fmt with
  | TsNone =>
      matchesPattern (backupPatternOf alg) (createBackupFilename fmt alg now d) = false
      /\ extractTimestamp (createBackupFilename fmt alg now d) = None
  | _ =>
      matchesPattern (backupPatternOf alg) (createBackupFilename fmt alg now d) = true
      /\ extractTimestamp (createBackupFilename fmt alg now d) = Some (createTimestamp fmt now d)
  end.
Proof.
  assert (H : forall f, f <> TsNone ->
              matchesPattern (backupPatternOf alg) (archiveName (createTimestamp f now d) alg) = true
              /\ extractTimestamp (archiveName (createTimestamp f now d) alg)
                 = Some (createTimestamp f now d)).
  { intros f Hf. pose proof (createTimestamp_wellFormed f now d Hf) as Hwf. split.
    - apply archiveName_matches, timestamp_chars_no_line_terminator.
      now apply wellFormed_iff in Hwf.
    - now apply extractTimestamp_archiveName. }
  destruct fmt.
  - apply (H Iso). discriminate.
  - apply (H Unix). discriminate.
  - destruct alg; split; vm_compute; reflexivity.
Qed.

Lemma lastChar_append (a s : string) : s <> EmptyString -> lastChar (a +:+ s) = lastChar s.
Proof.
  intros Hs. induction a as [|c a IH]; [reflexivity|].
  rewrite append_cons. simpl. rewrite IH.
  destruct (a +:+ s) eqn:He; [|reflexivity].
  destruct a; [rewrite append_nil in He; contradiction | discriminate He].
Qed.

Lemma re_match_last_lit (c : ascii) (pre : list (atom * bool)) :
  forall s, re_match (pre ++ [(Lit c, false)]) s = true -> lastChar s = Some c.
Proof.
  induction pre as [|[a starred] pre IH]; intros s H.
  - simpl in H. destruct s as [|x s]; [discriminate|].
    apply andb_true_iff in H as [Hx Hs]. apply Ascii.eqb_eq in Hx. subst x.
    destruct s; [reflexivity | discriminate].
  - destruct starred.
    + induction s as [|x s IHs].
      * rewrite <- List.app_comm_cons, re_match_star_nil, orb_false_r in H. now apply IH.
      * rewrite <- List.app_comm_cons, re_match_star_cons in H.
        apply orb_true_iff in H as [H|H]; [now apply IH|].
        apply andb_true_iff in H as [_ H]. rewrite List.app_comm_cons in H.
        specialize (IHs H). simpl. destruct s; [discriminate | exact IHs].
    + simpl in H. destruct s as [|x s]; [discriminate|].
      apply andb_true_iff in H as [_ H]. specialize (IH s H).
      simpl. destruct s; [discriminate | exact IH].
Qed.

(** X15: No sidecar name passes the filter of cleanup: a sidecar is never
    taken for an archive. *)
Theorem sidecar_never_matches (alg : CompressionAlgorithm) (name : string) :
  matchesPattern (backupPatternOf alg) (sidecar name) = false.
Proof.
  destruct (matchesPattern (backupPatternOf alg) (sidecar name)) eqn:H; [|reflexivity].
  exfalso.
  assert (Hlast : lastChar (sidecar name) = Some "t"%char).
  { revert H. unfold matchesPattern.
    destruct alg;
      match goal with |- RegExp_test ?src _ = true -> _ =>
        let v := eval vm_compute in src in change src with v
      end;
      unfold RegExp_test;
      match goal with |- re_match (compile ?b) _ = true -> _ =>
        let items := eval vm_compute in (compile b) in
        let pre := eval vm_compute in (List.removelast items) in
        change (compile b) with (pre ++ [(Lit "t"%char, false)])
      end;
      apply re_match_last_lit. }
  unfold sidecar in Hlast. rewrite lastChar_append in Hlast by discriminate.
  discriminate Hlast.
Qed.

(** ** The order of timestamps is the order of time *)

Lemma pow10_pos (k : nat) : 0 < 10 ^ Z.of_nat k.
Proof. apply Z.pow_pos_nonneg; lia. Qed.

Lemma pow10_succ (k : nat) : 10 ^ Z.of_nat (S k) = 10 * 10 ^ Z.of_nat k.
Proof. rewrite Nat2Z.inj_succ, Z.pow_succ_r by lia. reflexivity. Qed.

Lemma div_pow10_succ (n : Z) (k : nat) : n / 10 ^ Z.of_nat (S k) = n / 10 ^ Z.of_nat k / 10.
Proof.
  pose proof (pow10_pos k).
  rewrite pow10_succ, (Z.mul_comm 10), Z.div_div by lia. reflexivity.
Qed.

Lemma div10_pow10 (n : Z) (k : nat) : n / 10 / 10 ^ Z.of_nat k = n / 10 ^ Z.of_nat (S k).
Proof.
  pose proof (pow10_pos k).
  rewrite pow10_succ, Z.div_div by lia. reflexivity.
Qed.

Lemma decimal_length (w : nat) (n : Z) : String.length (decimal w n) = w.
Proof. induction w as [|w IH]; simpl; [reflexivity | now rewrite IH]. Qed.

Lemma decimal_snoc (k : nat) (n : Z) :
  decimal (S k) n = decimal k (n / 10) +:+ String (digit_char (n mod 10)) EmptyString.
Proof.
  induction k as [|k IH].
  - change (decimal 1 n) with (String (digit_char (n / 1 mod 10)) EmptyString).
    now rewrite Z.div_1_r.
  - change (decimal (S (S k)) n)
      with (String (digit_char (n / 10 ^ Z.of_nat (S k) mod 10)) (decimal (S k) n)).
    rewrite IH.
    change (decimal (S k) (n / 10))
      with (String (digit_char (n / 10 / 10 ^ Z.of_nat k mod 10)) (decimal k (n / 10))).
    rewrite append_cons, div10_pow10. reflexivity.
Qed.

Lemma digits_of_decimal (k : nat) :
  forall (f : nat) (n : Z) (acc : string),
    0 <= n < 10 ^ Z.of_nat (S k) ->
    (S k <= f)%nat ->
    k = 0%nat \/ 10 ^ Z.of_nat k <= n ->
    digits_of f n acc = decimal (S k) n +:+ acc.
Proof.
  induction k as [|k IH]; intros f n acc Hn Hf Hk.
  - destruct f as [|f]; [lia|].
    change (10 ^ Z.of_nat 1) with 10 in Hn.
    change (decimal 1 n) with (String (digit_char (n / 1 mod 10)) EmptyString).
    rewrite Z.div_1_r, append_cons, append_nil. simpl digits_of.
    destruct (Z.ltb_spec n 10); [reflexivity | lia].
  - destruct f as [|f]; [lia|].
    destruct Hk as [Hk|Hk]; [discriminate|].
    pose proof (pow10_pos k) as Hpos. rewrite !pow10_succ in Hn. rewrite pow10_succ in Hk.
    simpl digits_of. destruct (Z.ltb_spec n 10); [lia|].
    rewrite (IH f (n / 10)).
    + rewrite (decimal_snoc (S k) n), string_append_assoc. reflexivity.
    + rewrite pow10_succ. split; [apply Z.div_pos; lia|].
      apply Z.div_lt_upper_bound; lia.
    + lia.
    + destruct k as [|k]; [now left|]. right.
      apply Z.div_le_lower_bound; lia.
Qed.

(** A number of [k] digits prints as its [k] digits. *)
Lemma Number_toString_decimal (k : nat) (n : Z) :
  0 <= n < 10 ^ Z.of_nat (S k) ->
  k = 0%nat \/ 10 ^ Z.of_nat k <= n ->
  Number_toString n = decimal (S k) n.
Proof.
  intros Hn Hk. unfold Number_toString. destruct (Z.ltb_spec n 0); [lia|].
  rewrite (digits_of_decimal k _ n EmptyString Hn); [| |exact Hk].
  - clear. induction (decimal (S k) n) as [|c s IH]; [reflexivity|].
    rewrite append_cons. now f_equal.
  - destruct Hk as [->|Hk]; [lia|].
    assert (Hlog : Z.of_nat k <= Z.log2 n).
    { apply Z.log2_le_pow2; [pose proof (pow10_pos k); lia|].
      etransitivity; [|exact Hk]. apply Z.pow_le_mono_l. lia. }
    lia.
Qed.

Lemma padded_decimal (n : Z) :
  0 <= n < 100 -> padStart 2 "0" (Number_toString n) = decimal 2 n.
Proof.
  intros Hn. destruct (Z.lt_ge_cases n 10) as [Hlt|Hge].
  - rewrite (Number_toString_decimal 0 n) by (simpl; auto; lia).
    unfold padStart. rewrite decimal_length.
    change (decimal 2 n) with (String (digit_char (n / 10 mod 10)) (decimal 1 n)).
    rewrite (Z.div_small n 10) by lia. reflexivity.
  - rewrite (Number_toString_decimal 1 n) by (simpl; auto; lia).
    unfold padStart. rewrite decimal_length. reflexivity.
Qed.

Lemma localeCompare_digits (x y : Z) (a b : string) :
  0 <= x < 10 -> 0 <= y < 10 ->
  localeCompare (String (digit_char x) a) (String (digit_char y) b)
  = if x <? y then -1 else if y <? x then 1 else localeCompare a b.
Proof.
  intros Hx Hy.
  assert (Hlt : forall u v, 0 <= u < 10 -> 0 <= v < 10 ->
                (Z.to_N (48 + u) <? Z.to_N (48 + v))%N = (u <? v)).
  { intros u v Hu Hv. apply eq_iff_eq_true. rewrite N.ltb_lt, Z.ltb_lt. lia. }
  simpl. rewrite !digit_char_code by assumption. now rewrite !Hlt.
Qed.

(** On numbers that agree above their [w] lowest digits, the order of
    those digits as strings is the order of the numbers. *)
Lemma localeCompare_decimal_gen (w : nat) :
  forall a b,
    0 <= a -> 0 <= b ->
    a / 10 ^ Z.of_nat w = b / 10 ^ Z.of_nat w ->
    localeCompare (decimal w a) (decimal w b) = sign_of (a ?= b).
Proof.
  induction w as [|w IH]; intros a b Ha Hb Heq.
  - simpl in Heq. rewrite !Z.div_1_r in Heq. subst b. now rewrite Z.compare_refl.
  - pose proof (pow10_pos w) as Hpos.
    rewrite !div_pow10_succ in Heq.
    set (A := a / 10 ^ Z.of_nat w) in *. set (B := b / 10 ^ Z.of_nat w) in *.
    assert (HA : 0 <= A) by (apply Z.div_pos; lia).
    assert (HB : 0 <= B) by (apply Z.div_pos; lia).
    change (decimal (S w) a) with (String (digit_char (A mod 10)) (decimal w a)).
    change (decimal (S w) b) with (String (digit_char (B mod 10)) (decimal w b)).
    rewrite localeCompare_digits by (apply Z.mod_pos_bound; lia).
    pose proof (Z.div_mod A 10 ltac:(lia)) as EA. pose proof (Z.div_mod B 10 ltac:(lia)) as EB.
    destruct (Z.ltb_spec (A mod 10) (B mod 10)) as [Hlt|Hge].
    + assert (A < B) by lia.
      assert (a < b).
      { destruct (Z.lt_ge_cases a b) as [|Hba]; [assumption|].
        pose proof (Z.div_le_mono b a (10 ^ Z.of_nat w) Hpos Hba). unfold A, B in *. lia. }
      now rewrite (proj2 (Z.compare_lt_iff a b)).
    + destruct (Z.ltb_spec (B mod 10) (A mod 10)) as [Hlt|Hge'].
      * assert (B < A) by lia.
        assert (b < a).
        { destruct (Z.lt_ge_cases b a) as [|Hab]; [assumption|].
          pose proof (Z.div_le_mono a b (10 ^ Z.of_nat w) Hpos Hab). unfold A, B in *. lia. }
        now rewrite (proj2 (Z.compare_gt_iff a b)).
      * apply IH; try assumption. unfold A, B in *. lia.
Qed.

Lemma localeCompare_decimal (w : nat) (a b : Z) :
  0 <= a < 10 ^ Z.of_nat w -> 0 <= b < 10 ^ Z.of_nat w ->
  localeCompare (decimal w a) (decimal w b) = sign_of (a ?= b).
Proof.
  intros Ha Hb. apply localeCompare_decimal_gen; try lia.
  now rewrite !Z.div_small.
Qed.

Lemma localeCompare_same_head (c : ascii) (a b : string) :
  localeCompare (String c a) (String c b) = localeCompare a b.
Proof. simpl. now rewrite N.ltb_irrefl. Qed.

(** Strings that start with blocks of the same length compare by the
    blocks first. *)
Lemma localeCompare_blocks (a b x y : string) :
  String.length a = String.length b ->
  localeCompare (a +:+ x) (b +:+ y)
  = if localeCompare a b =? 0 then localeCompare x y else localeCompare a b.
Proof.
  revert b. induction a as [|c a IH]; intros [|d b] Hlen; try discriminate Hlen.
  - reflexivity.
  - rewrite !append_cons. simpl.
    destruct (N_of_ascii c <? N_of_ascii d)%N; [reflexivity|].
    destruct (N_of_ascii d <? N_of_ascii c)%N; [reflexivity|].
    apply IH. now injection Hlen.
Qed.

Lemma localeCompare_block_sep (w : nat) (x y : Z) (c : ascii) (ra rb : string) :
  0 <= x < 10 ^ Z.of_nat w -> 0 <= y < 10 ^ Z.of_nat w ->
  localeCompare (decimal w x +:+ String c EmptyString +:+ ra)
                (decimal w y +:+ String c EmptyString +:+ rb)
  = if sign_of (x ?= y) =? 0 then localeCompare ra rb else sign_of (x ?= y).
Proof.
  intros Hx Hy.
  rewrite localeCompare_blocks by (now rewrite !decimal_length).
  rewrite localeCompare_decimal by assumption.
  destruct (sign_of (x ?= y) =? 0); [|reflexivity].
  rewrite !append_cons, !append_nil. apply localeCompare_same_head.
Qed.

Lemma sign_of_then (c1 c2 : comparison) :
  sign_of (then_compare c1 c2) = if sign_of c1 =? 0 then sign_of c2 else sign_of c1.
Proof. now destruct c1. Qed.

Lemma iso_timestamp_decimal (now : Z) (d : DateParts) :
  four_digit_date d ->
  createTimestamp Iso now d
  = decimal 4 (getFullYear d) +:+ "-" +:+ decimal 2 (getMonth d + 1) +:+ "-"
    +:+ decimal 2 (getDate d) +:+ "T" +:+ decimal 2 (getHours d) +:+ "-"
    +:+ decimal 2 (getMinutes d) +:+ "-" +:+ decimal 2 (getSeconds d).
Proof.
  intros (Hy & Hm & Hd & Hh & Hmi & Hs). unfold createTimestamp.
  rewrite (Number_toString_decimal 3 (getFullYear d)) by (simpl; try right; lia).
  rewrite !padded_decimal by lia. reflexivity.
Qed.

(** X16: For years of four digits, the order of two ISO timestamps as
    strings is the order of the dates they were made from. *)
Theorem iso_timestamps_sort_by_date (nowA nowB : Z) (a b : DateParts) :
  four_digit_date a -> four_digit_date b ->
  localeCompare (createTimestamp Iso nowA a) (createTimestamp Iso nowB b)
  = sign_of (date_compare a b).
Proof.
  intros Ha Hb. rewrite (iso_timestamp_decimal nowA a Ha), (iso_timestamp_decimal nowB b Hb).
  destruct Ha as (Hya & Hma & Hda & Hha & Hmia & Hsa).
  destruct Hb as (Hyb & Hmb & Hdb & Hhb & Hmib & Hsb).
  unfold date_compare.
  rewrite !sign_of_then.
  rewrite !localeCompare_block_sep by (simpl; lia).
  rewrite localeCompare_decimal by (simpl; lia).
  assert (Hmon : (getMonth a + 1 ?= getMonth b + 1) = (getMonth a ?= getMonth b))
    by (rewrite !(Z.add_comm _ 1); apply Z.add_compare_mono_l).
  now rewrite Hmon.
Qed.

(** X17: For times whose seconds since the epoch have the same number of
    digits (at most 13, the range of [Date]), the order of two Unix
    timestamps as strings is the order of the times. *)
Theorem unix_timestamps_sort_by_time (k : nat) (nowA nowB : Z) (a b : DateParts) :
  (k <= 12)%nat ->
  10 ^ Z.of_nat k <= nowA / 1000 < 10 ^ Z.of_nat (S k) ->
  10 ^ Z.of_nat k <= nowB / 1000 < 10 ^ Z.of_nat (S k) ->
  localeCompare (createTimestamp Unix nowA a) (createTimestamp Unix nowB b)
  = sign_of (nowA / 1000 ?= nowB / 1000).
Proof.
  intros _ Ha Hb. pose proof (pow10_pos k). unfold createTimestamp.
  rewrite !(Number_toString_decimal k) by (try right; lia).
  apply localeCompare_decimal; lia.
Qed.

(** ** More on cleanup: what it leaves and what it leaves alone *)

Lemma slice_subset {A : Type} (count : Z) (l : list A) (x : A) : In x (slice count l) -> In x l.
Proof. unfold slice. apply in_skipn. Qed.

Lemma planned_deletions_are_backups (destination : string) (alg : CompressionAlgorithm)
    (items : list string) (N : Z) (cmp : string -> string -> Z) (d : string) :
  In d (if Z.of_nat (List.length (List.filter (isBackup destination alg) items)) <=? N then []
        else slice N (sort_by cmp (List.filter (isBackup destination alg) items))) ->
  In d items /\ isBackup destination alg d = true.
Proof.
  destruct (_ <=? N); [intros []|]. intros H%slice_subset.
  apply (Permutation_in _ (sort_by_perm cmp _)) in H. now apply List.filter_In in H.
Qed.

(** X18: Cleanup never adds a name, and what it removes is a name that
    passes its filter (under the prefix, in a bucket) or the sidecar name
    of one. *)
Theorem cleanup_removes_only_backups_and_sidecars (destination : string) (N : Z)
    (fmt : TimestampFormat) (alg : CompressionAlgorithm) (st : Store) (items : list string) :
  fmt <> TsNone ->
  contents destination st = Some items ->
  0 <= N ->
  exists items',
    contents destination (snd (cleanupOldBackups destination N fmt alg st)) = Some items'
    /\ (forall x, In x items' -> In x items)
    /\ (forall x, In x items -> ~ In x items' ->
          isBackup destination alg x = true
          \/ exists d, In d items /\ isBackup destination alg d = true /\ x = sidecar d).
Proof.
  intros Hfmt Hitems HN.
  destruct (cleanup_run destination N fmt alg st items Hfmt Hitems HN) as (st' & Hrun & Hst').
  rewrite Hrun. simpl in *. eexists. split; [exact Hst'|]. split.
  - intros x Hx. now apply List.filter_In in Hx.
  - intros x Hx Hnot.
    match type of Hnot with ~ In x (List.filter (kept_after ?del) items) =>
      destruct (kept_after del x) eqn:Hk end;
      [exfalso; apply Hnot, List.filter_In; auto|].
    unfold kept_after in Hk. apply andb_false_iff in Hk as [Hk|Hk];
      apply negb_false_iff, inb_In in Hk.
    + left. now apply planned_deletions_are_backups in Hk.
    + right. apply List.in_map_iff in Hk as (d & <- & Hd).
      apply planned_deletions_are_backups in Hd as [Hd1 Hd2]. eauto.
Qed.


Lemma unlink_fold_frame (destination : string) (deleted : list string) :
  forall st : Store,
    let st' := List.fold_left
                 (fun st file => unlink destination (file +:+ ".sha256") (unlink destination file st))
                 deleted st in
    s3 st' = s3 st /\ forall d, d <> destination -> local st' !! d = local st !! d.
Proof.
  induction deleted as [|f deleted IH]; intros st; simpl; [now split|].
  destruct (IH (unlink destination (f +:+ ".sha256") (unlink destination f st))) as [Hs Hl].
  split; [exact Hs|]. intros d Hd. rewrite (Hl d Hd). simpl.
  rewrite !lookup_alter_ne by congruence. reflexivity.
Qed.

Lemma s3_delete_fold_frame (bucket : string) (deleted : list string) :
  forall st : Store,
    let st' := List.fold_left
                 (fun st fileKey => s3_delete bucket (fileKey +:+ ".sha256") (s3_delete bucket fileKey st))
                 deleted st in
    local st' = local st /\ forall b, b <> bucket -> s3 st' !! b = s3 st !! b.
Proof.
  induction deleted as [|f deleted IH]; intros st; simpl; [now split|].
  destruct (IH (s3_delete bucket (f +:+ ".sha256") (s3_delete bucket f st))) as [Hl Hs].
  split; [exact Hl|]. intros b Hb. rewrite (Hs b Hb). simpl.
  rewrite !lookup_alter_ne by congruence. reflexivity.
Qed.

(** X20: Cleanup at a local destination leaves every bucket and every other
    directory as they were; at an object-store destination it leaves
    every directory and every other bucket as they were.  This holds for
    every keep count and format, and whether it resolves or rejects. *)
Theorem cleanup_frame (destination : string) (N : Z) (fmt : TimestampFormat)
    (alg : CompressionAlgorithm) (st : Store) :
  let st' := snd (cleanupOldBackups destination N fmt alg st) in
  (startsWith destination "s3://" = false ->
   s3 st' = s3 st /\ forall d, d <> destination -> local st' !! d = local st !! d)
  /\ (startsWith destination "s3://" = true ->
      local st' = local st
      /\ forall bucket pfx, parseS3Url destination = Ok (bucket, pfx) ->
                            forall b, b <> bucket -> s3 st' !! b = s3 st !! b).
Proof.
  intros st'. subst st'.
  assert (Hrun : fmt = TsNone
                 \/ cleanupOldBackups destination N fmt alg st
                    = if startsWith destination "s3://"
                      then cleanupS3Backups destination N (backupPatternOf alg) st
                      else cleanupLocalBackups destination N (backupPatternOf alg) st)
    by (destruct fmt; auto).
  destruct Hrun as [-> | ->]; [simpl; split; intros _; split; auto|].
  split; intros Hs3; rewrite Hs3.
  - unfold cleanupLocalBackups.
    destruct (local st !! destination) as [files|]; [|simpl; auto].
    destruct (_ <=? N); [simpl; auto|]. simpl.
    match goal with |- context [List.fold_left ?f ?d ?s] =>
      destruct (unlink_fold_frame destination d s) as [H1 H2] end.
    simpl in H1, H2. split; assumption.
  - unfold cleanupS3Backups.
    destruct (parseS3Url destination) as [[bucket pfx]| |]; [|simpl; split; [reflexivity | discriminate]..].
    assert (Hgoal : forall st' : Store,
               local st' = local st /\ (forall b, b <> bucket -> s3 st' !! b = s3 st !! b) ->
               local st' = local st
               /\ forall bucket0 pfx0, Ok (bucket, pfx) = Ok (bucket0, pfx0) ->
                                       forall b, b <> bucket0 -> s3 st' !! b = s3 st !! b).
    { intros st' [H1 H2]. split; [exact H1|]. intros ? ? [= <- <-]. exact H2. }
    destruct (s3 st !! bucket) as [keys|]; [|apply Hgoal; simpl; auto].
    destruct (List.filter _ keys) as [|c l]; [apply Hgoal; simpl; auto|].
    destruct (_ <=? N); [apply Hgoal; simpl; auto|]. simpl. apply Hgoal.
    match goal with |- context [List.fold_left ?f ?d ?s] =>
      destruct (s3_delete_fold_frame bucket d s) as [H1 H2] end.
    simpl in H1, H2. split; assumption.
Qed.

(** ** A negative keep count *)




(** ** Where [executeBackup] places the archive *)

Lemma timestamp_chars_no_slash (s : string) :
  all_chars is_timestamp_char s = true -> has_slash s = false.
Proof.
  induction s as [|c s IH]; [reflexivity|]. simpl. intros H.
  apply andb_true_iff in H as [Hc Hs]. rewrite (IH Hs), orb_false_r.
  destruct (Ascii.eqb_spec c "/"); [subst c; discriminate Hc | reflexivity].
Qed.

Lemma createBackupFilename_no_slash (fmt : TimestampFormat) (alg : CompressionAlgorithm)
    (now : Z) (d : DateParts) :
  has_slash (createBackupFilename fmt alg now d) = false.
Proof.
  assert (Halg : has_slash (".tar." +:+ compressionName alg +:+ ".crypt") = false)
    by (destruct alg; reflexivity).
  assert (H : forall f, f <> TsNone ->
            has_slash ("backup_" +:+ createTimestamp f now d +:+ ".tar."
                       +:+ compressionName alg +:+ ".crypt") = false).
  { intros f Hf. do 2 rewrite has_slash_append. rewrite Halg.
    apply createTimestamp_wellFormed with (now := now) (d := d) in Hf.
    apply wellFormed_iff in Hf as [_ Hf].
    now rewrite (timestamp_chars_no_slash _ Hf). }
  destruct fmt.
  - apply (H Iso). discriminate.
  - apply (H Unix). discriminate.
  - destruct alg; reflexivity.
Qed.

Lemma lastChar_slash_has_slash (s : string) : lastChar s = Some "/"%char -> has_slash s = true.
Proof.
  induction s as [|c r IH]; [discriminate|]. intros H.
  change (has_slash (String c r)) with ((c =? "/")%char || has_slash r).
  destruct r as [|c' r'].
  - injection H as ->. reflexivity.
  - rewrite IH by exact H. apply orb_true_r.
Qed.

Lemma lastChar_slash_lastSegment (s : string) :
  lastChar s = Some "/"%char -> lastSegment s = EmptyString.
Proof.
  induction s as [|c r IH]; [discriminate|]. intros H.
  unfold lastSegment; fold lastSegment.
  rewrite (lastChar_slash_has_slash _ H).
  destruct r as [|c' r']; [reflexivity|]. now apply IH.
Qed.

Lemma lastChar_split (s : string) (c : ascii) :
  lastChar s = Some c -> exists dir, s = dir +:+ String c EmptyString.
Proof.
  induction s as [|x r IH]; [discriminate|]. intros H.
  destruct r as [|c' r'].
  - injection H as ->. now exists EmptyString.
  - destruct (IH H) as (dir & Hdir). exists (String x dir). now rewrite append_cons, <- Hdir.
Qed.

(** X22: The path [executeBackup] hands to backup for a destination: the
    destination, one slash unless it ends in one, and the created name.
    Its last segment, by which cleanup of an object store names a key, is
    the created name; with a timestamp format that segment passes the
    filter of cleanup. *)
Theorem output_path_ends_in_created_name (dest : string) (fmt : TimestampFormat)
    (alg : CompressionAlgorithm) (now : Z) (d : DateParts) :
  let filename := createBackupFilename fmt alg now d in
  lastSegment (outputPathOf dest filename) = filename
  /\ (exists dir, outputPathOf dest filename = dir +:+ "/" +:+ filename
                  /\ (dest = dir \/ dest = dir +:+ "/"))
  /\ (fmt <> TsNone ->
      matchesPattern (backupPatternOf alg) (lastSegment (outputPathOf dest filename)) = true).
Proof.
  intros filename.
  assert (Hns : has_slash filename = false) by apply createBackupFilename_no_slash.
  assert (Hlast : lastSegment (outputPathOf dest filename) = filename).
  { unfold outputPathOf.
    destruct (lastChar dest) as [c|] eqn:Hc.
    - destruct (Ascii.eqb_spec c "/") as [->|Hne].
      + rewrite append_nil, (lastSegment_append _ _ Hns), (lastChar_slash_lastSegment _ Hc).
        apply append_nil.
      + assert (Hsep : match c with "/"%char => "" | _ => "/" end = "/").
        { destruct c as [[] [] [] [] [] [] [] []]; try reflexivity. now contradiction Hne. }
        rewrite Hsep, <- string_append_assoc, (lastSegment_append _ _ Hns).
        rewrite (lastChar_slash_lastSegment (dest +:+ "/")); [apply append_nil|].
        now rewrite lastChar_append.
    - rewrite <- string_append_assoc, (lastSegment_append _ _ Hns).
      rewrite (lastChar_slash_lastSegment (dest +:+ "/")); [apply append_nil|].
      now rewrite lastChar_append. }
  split; [exact Hlast|]. split.
  - unfold outputPathOf. destruct (lastChar dest) as [c|] eqn:Hc.
    + destruct (Ascii.eqb_spec c "/") as [->|Hne].
      * destruct (lastChar_split _ _ Hc) as (dir & Hdir). exists dir.
        split; [|now right]. rewrite append_nil, Hdir. apply string_append_assoc.
      * exists dest. split; [|now left].
        destruct c as [[] [] [] [] [] [] [] []]; try reflexivity. now contradiction Hne.
    + exists dest. split; [reflexivity | now left].
  - intros Hf. rewrite Hlast. subst filename.
    assert (Hname : createBackupFilename fmt alg now d
                    = archiveName (createTimestamp fmt now d) alg)
      by (destruct fmt; [reflexivity | reflexivity | contradiction]).
    rewrite Hname. apply archiveName_matches.
    apply timestamp_chars_no_line_terminator.
    apply (createTimestamp_wellFormed fmt now d) in Hf.
    now apply wellFormed_iff in Hf.
Qed.

(** ** The properties of cleanup and of timestamps on concrete inputs *)

Lemma cleanup_removes_only_backups_and_sidecars_witness :
  exists items',
    contents "dst" (snd (cleanupOldBackups "dst" 1 Iso Zstd Dirs.three)) = Some items'
    /\ (forall x, In x items' ->
          In x [Dirs.oldest; sidecar Dirs.oldest; Dirs.newest; sidecar Dirs.newest; "notes.txt";
                Dirs.middle; sidecar Dirs.middle])
    /\ In "notes.txt" items'.
Proof.
  destruct (cleanup_removes_only_backups_and_sidecars "dst" 1 Iso Zstd Dirs.three
              [Dirs.oldest; sidecar Dirs.oldest; Dirs.newest; sidecar Dirs.newest; "notes.txt";
               Dirs.middle; sidecar Dirs.middle])
    as (items' & Hst' & Hsub & _).
  - discriminate.
  - reflexivity.
  - lia.
  - exists items'. split; [exact Hst'|]. split; [exact Hsub|].
    vm_compute in Hst'. injection Hst' as <-. simpl. tauto.
Defined.



Lemma iso_timestamps_sort_by_date_witness :
  localeCompare
    (createTimestamp Iso 0 {| getFullYear := 2024; getMonth := 8; getDate := 30;
                              getHours := 23; getMinutes := 59; getSeconds := 59 |})
    (createTimestamp Iso 0 {| getFullYear := 2024; getMonth := 9; getDate := 1;
                              getHours := 0; getMinutes := 0; getSeconds := 0 |})
  = -1.
Proof.
  apply (iso_timestamps_sort_by_date 0 0
           {| getFullYear := 2024; getMonth := 8; getDate := 30;
              getHours := 23; getMinutes := 59; getSeconds := 59 |}
           {| getFullYear := 2024; getMonth := 9; getDate := 1;
              getHours := 0; getMinutes := 0; getSeconds := 0 |});
    unfold four_digit_date; simpl; lia.
Defined.

Lemma unix_timestamps_sort_by_time_witness :
  localeCompare
    (createTimestamp Unix 1700000000999
       {| getFullYear := 2023; getMonth := 10; getDate := 14;
          getHours := 22; getMinutes := 13; getSeconds := 20 |})
    (createTimestamp Unix 1699999999000
       {| getFullYear := 2023; getMonth := 10; getDate := 14;
          getHours := 22; getMinutes := 13; getSeconds := 19 |})
  = 1.
Proof.
  apply (unix_timestamps_sort_by_time 9 1700000000999 1699999999000
           {| getFullYear := 2023; getMonth := 10; getDate := 14;
              getHours := 22; getMinutes := 13; getSeconds := 20 |}
           {| getFullYear := 2023; getMonth := 10; getDate := 14;
              getHours := 22; getMinutes := 13; getSeconds := 19 |}).
  - lia.
  - vm_compute. split; congruence.
  - vm_compute. split; congruence.
Defined.

(** ** Retention of the archives of a destination *)





